(** * yaegi: the interpreter front door (interp/interp.go) and the command-line driver

    A shallow embedding of the evaluator entry points ([eval], [Eval],
    [EvalWithContext], [stop]), of the registration of binary packages
    ([Use], [fixStdio]), of the read-eval-print loop ([REPL], [getPrompt],
    [ignoreScannerError]) and of the driver's [main].

    Go strings are byte strings: they are [string] here, one [ascii] per byte.
    Go maps are finite maps ([gmap]); the interpreter's fields that the code
    of interp.go itself reads and writes are fields of the record
    [Interpreter], while everything kept by the other files of the package
    (the node graph, the scopes, the frames, the hooks) is an abstract
    [World] that the absent functions transform.  *)

From Stdlib Require Import ZArith Ascii String List Lia Bool Sorted.
From stdpp Require Import base option list gmap strings fin_maps pretty.

Open Scope string_scope.

(** ** Go's [strings] package, as far as interp.go and the driver call it *)

Module GoStrings.

(** [s[lo:]] *)
Definition slice_from (s : string) (lo : nat) : string :=
  String.substring lo (String.length s - lo) s.

(** [s[0:hi]] *)
Definition slice_to (s : string) (hi : nat) : string :=
  String.substring 0 hi s.

(** [len(s) >= len(prefix) && s[0:len(prefix)] == prefix] *)
Definition HasPrefix (s prefix : string) : bool :=
  (String.length prefix <=? String.length s)%nat
  && String.eqb (slice_to s (String.length prefix)) prefix.

(** [len(s) >= len(suffix) && s[len(s)-len(suffix):] == suffix] *)
Definition HasSuffix (s suffix : string) : bool :=
  (String.length suffix <=? String.length s)%nat
  && String.eqb (slice_from s (String.length s - String.length suffix)) suffix.

Definition TrimPrefix (s prefix : string) : string :=
  if HasPrefix s prefix then slice_from s (String.length prefix) else s.

(** [Replace(s, old, new, n)] for a non-empty [old] and [n >= 0]: the first
    [n] non-overlapping occurrences of [old], from the left, become [new].
    [skip] counts the bytes of a matched [old] still to be dropped. *)
Fixpoint replace_from (old new s : string) (skip n : nat) {struct s} : string :=
  match s with
  | EmptyString => EmptyString
  | String c rest =>
      match skip with
      | S k => replace_from old new rest k n
      | O =>
          match n with
          | O => s
          | S n' =>
              if HasPrefix s old
              then new +:+ replace_from old new rest (String.length old - 1) n'
              else String c (replace_from old new rest 0 n)
          end
      end
  end.

Definition Replace (s old new : string) (n : nat) : string :=
  replace_from old new s 0 n.

End GoStrings.

(** ** Go's [strconv.ParseBool]: the accepted spellings, an error otherwise *)

Module strconv.

Definition ParseBool (str : string) : option bool :=
  if (String.eqb str "1" || String.eqb str "t" || String.eqb str "T"
      || String.eqb str "TRUE" || String.eqb str "true" || String.eqb str "True")%bool
  then Some true
  else if (String.eqb str "0" || String.eqb str "f" || String.eqb str "F"
           || String.eqb str "FALSE" || String.eqb str "false" || String.eqb str "False")%bool
  then Some false
  else None.

(** [b, _ = strconv.ParseBool(s)]: the error is dropped, [b] is false then *)
Definition ParseBool_ (str : string) : bool :=
  match ParseBool str with Some b => b | None => false end.

End strconv.

(** ** Values, errors and panics *)

(** A [*node]: its place in the node graph that the analysis passes keep. *)
Definition node := nat.

(** [reflect.Value]: the zero Value, for which [IsValid()] is false, or a
    host value, given by the text [fmt] prints for it and by the [*node] it
    holds when its [Interface()] is one. *)
Inductive reflect_Value :=
| ZeroValue
| HostValue (repr : string) (holds : option node).

Definition IsValid (v : reflect_Value) : bool :=
  match v with ZeroValue => false | HostValue _ _ => true end.

(** [n, ok := res.Interface().( *node)]: the node when [ok] *)
Definition Interface_node (v : reflect_Value) : option node :=
  match v with ZeroValue => None | HostValue _ n => n end.

(** [fmt.Sprint] of a [reflect.Value] *)
Definition Sprint_Value (v : reflect_Value) : string :=
  match v with ZeroValue => "<invalid reflect.Value>" | HostValue r _ => r end.

(** The non-nil [interface{}] given to [panic], by the text [fmt] prints for
    it; [recover()] hands it back, and returns nil when nothing panics. *)
Inductive any := Dyn (repr : string).

Definition Sprint_any (v : any) : string := match v with Dyn r => r end.

(** What the Go runtime knows about the stack when a panic is recovered:
    the return addresses [runtime.Callers(1, ...)] walks, and the text of
    [debug.Stack()]. *)
Record runtime_stack := { pcs : list Z; dump : string }.

(** [scanner.Error]: [Pos] is the printed position, empty when it is unset. *)
Record scanner_Error := { Pos : string; Msg : string }.

Definition scanner_Error_string (e : scanner_Error) : string :=
  if String.eqb (Pos e) "" then Msg e else Pos e +:+ ": " +:+ Msg e.

(** [type Panic struct { Value interface{}; Callers []uintptr; Stack []byte }] *)
Record Panic := { Value : any; Callers : list Z; Stack : string }.

(** The dynamic type of a non-nil [error], as the type switch of [REPL] and
    [errors.Is] tell them apart. *)
Inductive error :=
| scanner_ErrorList (l : list scanner_Error)
| PanicError (p : Panic)
| context_Canceled
| context_DeadlineExceeded
| OtherError (msg : string).

(** [func (e Panic) Error() string { return fmt.Sprint(e.Value) }], and the
    [Error()] of the other kinds. *)
Definition Error_string (e : error) : string :=
  match e with
  | scanner_ErrorList [] => "no errors"
  | scanner_ErrorList [e0] => scanner_Error_string e0
  | scanner_ErrorList (e0 :: more) =>
      scanner_Error_string e0 +:+ " (and " +:+ pretty (length more) +:+ " more errors)"
  | PanicError p => Sprint_any (Value p)
  | context_Canceled => "context canceled"
  | context_DeadlineExceeded => "context deadline exceeded"
  | OtherError msg => msg
  end.

Definition is_Panic (e : error) : bool :=
  match e with PanicError _ => true | _ => false end.

(** [errors.Is(err, context.Canceled)] *)
Definition errors_Is_Canceled (err : option error) : bool :=
  match err with Some context_Canceled => true | _ => false end.

(** The outcome of a call: it returns, or it panics with a value. *)
Inductive result (A : Type) :=
| Ok (a : A)
| Panicking (r : any) (rt : runtime_stack).
Arguments Ok {A} a.
Arguments Panicking {A} r rt.

(** [recover()] in a deferred call *)
Definition recover {A} (r : result A) : option (any * runtime_stack) :=
  match r with Ok _ => None | Panicking v rt => Some (v, rt) end.

(** ** Symbols of the universe scope *)

(** The symbol kinds interp.go names; [undefSym] is the zero value. *)
Inductive sKind := undefSym | pkgSym | typeSym | constSym | bltnSym.

Inductive tcat :=
| boolT | uint8T | complex64T | complex128T | errorT | float32T | float64T
| intT | int8T | int16T | int32T | int64T | stringT
| uintT | uint16T | uint32T | uint64T | uintptrT.

(** The [*itype] literals interp.go builds. *)
Inductive itype :=
| Basic (cat : tcat) (name : string)   (* &itype{cat: c, name: n} *)
| InterfaceT                           (* &itype{cat: interfaceT} *)
| UntypedBool                          (* untypedBool() *)
| UntypedInt                           (* untypedInt() *)
| NilT                                 (* &itype{cat: nilT, untyped: true} *)
| SrcPkgT (path : string)              (* &itype{cat: srcPkgT, path: p} *)
| BinPkgT (path : string).             (* &itype{cat: binPkgT, path: p, scope: universe} *)

(** [symbol], without the generator of a builtin; [typ] may be nil. *)
Record symbol := { kind : sKind; typ : option itype }.

(** [scope], by its symbol table; [global] is set for the universe. *)
Record scope := { global : bool; sym : gmap string symbol }.

Definition initUniverse : scope :=
  {| global := true;
     sym := list_to_map
       [ ("bool", {| kind := typeSym; typ := Some (Basic boolT "bool") |});
         ("byte", {| kind := typeSym; typ := Some (Basic uint8T "uint8") |});
         ("complex64", {| kind := typeSym; typ := Some (Basic complex64T "complex64") |});
         ("complex128", {| kind := typeSym; typ := Some (Basic complex128T "complex128") |});
         ("error", {| kind := typeSym; typ := Some (Basic errorT "error") |});
         ("float32", {| kind := typeSym; typ := Some (Basic float32T "float32") |});
         ("float64", {| kind := typeSym; typ := Some (Basic float64T "float64") |});
         ("int", {| kind := typeSym; typ := Some (Basic intT "int") |});
         ("int8", {| kind := typeSym; typ := Some (Basic int8T "int8") |});
         ("int16", {| kind := typeSym; typ := Some (Basic int16T "int16") |});
         ("int32", {| kind := typeSym; typ := Some (Basic int32T "int32") |});
         ("int64", {| kind := typeSym; typ := Some (Basic int64T "int64") |});
         ("interface{}", {| kind := typeSym; typ := Some (InterfaceT) |});
         ("rune", {| kind := typeSym; typ := Some (Basic int32T "int32") |});
         ("string", {| kind := typeSym; typ := Some (Basic stringT "string") |});
         ("uint", {| kind := typeSym; typ := Some (Basic uintT "uint") |});
         ("uint8", {| kind := typeSym; typ := Some (Basic uint8T "uint8") |});
         ("uint16", {| kind := typeSym; typ := Some (Basic uint16T "uint16") |});
         ("uint32", {| kind := typeSym; typ := Some (Basic uint32T "uint32") |});
         ("uint64", {| kind := typeSym; typ := Some (Basic uint64T "uint64") |});
         ("uintptr", {| kind := typeSym; typ := Some (Basic uintptrT "uintptr") |});
         ("false", {| kind := constSym; typ := Some (UntypedBool) |});
         ("true", {| kind := constSym; typ := Some (UntypedBool) |});
         ("iota", {| kind := constSym; typ := Some (UntypedInt) |});
         ("nil", {| kind := undefSym; typ := Some NilT |});
         ("append", {| kind := bltnSym; typ := None |});
         ("cap", {| kind := bltnSym; typ := None |});
         ("close", {| kind := bltnSym; typ := None |});
         ("complex", {| kind := bltnSym; typ := None |});
         ("imag", {| kind := bltnSym; typ := None |});
         ("copy", {| kind := bltnSym; typ := None |});
         ("delete", {| kind := bltnSym; typ := None |});
         ("len", {| kind := bltnSym; typ := None |});
         ("make", {| kind := bltnSym; typ := None |});
         ("new", {| kind := bltnSym; typ := None |});
         ("panic", {| kind := bltnSym; typ := None |});
         ("print", {| kind := bltnSym; typ := None |});
         ("println", {| kind := bltnSym; typ := None |});
         ("real", {| kind := bltnSym; typ := None |});
         ("recover", {| kind := bltnSym; typ := None |}) ] |}.

(** ** Streams, options and the interpreter record *)

(** What [Stat()] returns: an error, or a [FileInfo] with this [Mode()]. *)
Inductive stat_result := StatError | StatInfo (mode : Z).

(** An [io.Reader]: [stat] is [None] when the reader has no [Stat] method. *)
Record Reader := { rname : string; stat : option stat_result }.

(** An [io.Writer], by name. *)
Definition Writer := string.

(** [os.ModeCharDevice]: the eleventh mode bit from the top of 32. *)
Definition os_ModeCharDevice : Z := Z.shiftl 1 21.

Record build_Context := { GOPATH : string; BuildTags : list string }.

(** [Exports]: [map[string]map[string]reflect.Value] *)
Abbreviation Exports := (gmap string (gmap string reflect_Value)).

Record opt := {
  astDot : bool;
  cfgDot : bool;
  dotCmd : string;
  noRun : bool;
  fastChan : bool;
  context : build_Context;
  stdin : Reader;
  stdout : Writer;
  stderr : Writer }.

(** A [chan struct{}]: nil, open or closed. *)
Inductive chan := nil_chan | open_chan | closed_chan.

(** The fields of [Interpreter] that interp.go reads and writes itself.
    [srcPkg[p]] aliases the symbol table of a package scope: it is the key
    of that scope in [interp.scopes].  [frame_id] is [interp.frame.id]. *)
Record Interpreter := {
  id : Z;
  name : string;
  iopt : opt;
  cancelChan : bool;
  binPkg : Exports;
  universe : scope;
  srcPkg : gmap string string;
  pkgNames : gmap string string;
  done : chan;
  frame_id : Z }.

Definition set_id (x : Z) (i : Interpreter) : Interpreter :=
  {| id := x; name := name i; iopt := iopt i; cancelChan := cancelChan i;
     binPkg := binPkg i; universe := universe i; srcPkg := srcPkg i;
     pkgNames := pkgNames i; done := done i; frame_id := frame_id i |}.

Definition set_name (x : string) (i : Interpreter) : Interpreter :=
  {| id := id i; name := x; iopt := iopt i; cancelChan := cancelChan i;
     binPkg := binPkg i; universe := universe i; srcPkg := srcPkg i;
     pkgNames := pkgNames i; done := done i; frame_id := frame_id i |}.

Definition set_cancelChan (x : bool) (i : Interpreter) : Interpreter :=
  {| id := id i; name := name i; iopt := iopt i; cancelChan := x;
     binPkg := binPkg i; universe := universe i; srcPkg := srcPkg i;
     pkgNames := pkgNames i; done := done i; frame_id := frame_id i |}.

Definition set_binPkg (x : Exports) (i : Interpreter) : Interpreter :=
  {| id := id i; name := name i; iopt := iopt i; cancelChan := cancelChan i;
     binPkg := x; universe := universe i; srcPkg := srcPkg i;
     pkgNames := pkgNames i; done := done i; frame_id := frame_id i |}.

Definition set_universe (x : scope) (i : Interpreter) : Interpreter :=
  {| id := id i; name := name i; iopt := iopt i; cancelChan := cancelChan i;
     binPkg := binPkg i; universe := x; srcPkg := srcPkg i;
     pkgNames := pkgNames i; done := done i; frame_id := frame_id i |}.

Definition set_srcPkg (x : gmap string string) (i : Interpreter) : Interpreter :=
  {| id := id i; name := name i; iopt := iopt i; cancelChan := cancelChan i;
     binPkg := binPkg i; universe := universe i; srcPkg := x;
     pkgNames := pkgNames i; done := done i; frame_id := frame_id i |}.

Definition set_pkgNames (x : gmap string string) (i : Interpreter) : Interpreter :=
  {| id := id i; name := name i; iopt := iopt i; cancelChan := cancelChan i;
     binPkg := binPkg i; universe := universe i; srcPkg := srcPkg i;
     pkgNames := x; done := done i; frame_id := frame_id i |}.

Definition set_done (x : chan) (i : Interpreter) : Interpreter :=
  {| id := id i; name := name i; iopt := iopt i; cancelChan := cancelChan i;
     binPkg := binPkg i; universe := universe i; srcPkg := srcPkg i;
     pkgNames := pkgNames i; done := x; frame_id := frame_id i |}.

Definition set_frame_id (x : Z) (i : Interpreter) : Interpreter :=
  {| id := id i; name := name i; iopt := iopt i; cancelChan := cancelChan i;
     binPkg := binPkg i; universe := universe i; srcPkg := srcPkg i;
     pkgNames := pkgNames i; done := done i; frame_id := x |}.

(** [sc.sym[name] = s] *)
Definition set_sym (n : string) (s : symbol) (sc : scope) : scope :=
  {| global := global sc; sym := <[n := s]> (sym sc) |}.

Definition mainID : string := "main".
Definition selfPath : string := "github.com/containous/yaegi/interp".
Definition DefaultSourceName : string := "_.go".

(** [Options], with [None] for a nil stream. *)
Record Options := {
  GoPath : string;
  opt_BuildTags : list string;
  Stdin : option Reader;
  Stdout : option Writer;
  Stderr : option Writer }.

(** The process [New] runs in: its environment variables, its standard
    streams and [build.Default]. *)
Record OS := {
  Getenv : string -> string;
  os_Stdin : Reader;
  os_Stdout : Writer;
  os_Stderr : Writer;
  build_Default : build_Context }.

Definition New (os : OS) (options : Options) : Interpreter :=
  {| id := 0;
     name := "";
     iopt :=
       {| astDot := strconv.ParseBool_ (Getenv os "YAEGI_AST_DOT");
          cfgDot := strconv.ParseBool_ (Getenv os "YAEGI_CFG_DOT");
          dotCmd := Getenv os "YAEGI_DOT_CMD";
          noRun := strconv.ParseBool_ (Getenv os "YAEGI_NO_RUN");
          fastChan := strconv.ParseBool_ (Getenv os "YAEGI_FAST_CHAN");
          context :=
            {| GOPATH := GoPath options;
               BuildTags :=
                 if (0 <? List.length (opt_BuildTags options))%nat
                 then opt_BuildTags options
                 else BuildTags (build_Default os) |};
          stdin := default (os_Stdin os) (Stdin options);
          stdout := default (os_Stdout os) (Stdout options);
          stderr := default (os_Stderr os) (Stderr options) |};
     cancelChan := false;
     binPkg := {[ "" := {[ "_error" := HostValue "<nil>" None ]} ]};
     universe := initUniverse;
     srcPkg := ∅;
     pkgNames := ∅;
     done := nil_chan;
     frame_id := 0 |}.

(** The unsigned 64-bit counters [interp.id] and [frame.id] live in
    [0, 2^64). *)
Definition uint64 (z : Z) : Z := z mod 2 ^ 64.

(** [func (interp *Interpreter) runid() uint64] *)
Definition runid (i : Interpreter) : Z := id i.

(** [close(c)]: closing a nil or a closed channel panics. *)
Definition close (c : chan) : option chan :=
  match c with open_chan => Some closed_chan | _ => None end.

(** [stop]: [atomic.AddUint64(&interp.id, 1)], then [close(interp.done)].
    [None] is the panic of [close]. *)
Definition stop (i : Interpreter) : option Interpreter :=
  let i1 := set_id (uint64 (id i + 1)) i in
  match close (done i1) with
  | Some c => Some (set_done c i1)
  | None => None
  end.

(** ** The analysis and execution passes [eval] calls *)

(** The passes live in other files of the package.  Each one reads the
    interpreter record, transforms the [World] (node graph, scopes, frames,
    hooks) and returns or panics.  What the analysis passes enter in
    [srcPkg], [pkgNames] and the universe is not followed: of these three
    fields only what [eval] and [REPL] write themselves is. *)
Definition pass (World A : Type) : Type :=
  Interpreter -> World -> World * result A.

Record Passes (World : Type) := {
  (** [interp.ast(src, name, inc)]: package name, root node, error *)
  ast : string -> string -> bool -> pass World (string * option node * option error);
  (** [root.astDot(dotWriter(dotCmd), name)] *)
  node_astDot : node -> string -> string -> pass World unit;
  (** [root.cfgDot(dotWriter(dotCmd))] *)
  node_cfgDot : node -> string -> pass World unit;
  (** [defaultDotCmd(name, prefix)] *)
  defaultDotCmd : string -> string -> string;
  (** [interp.gtaRetry([]*node{root}, pkgName)] *)
  gtaRetry : list node -> string -> pass World (option error);
  (** [interp.cfg(root, pkgName)]: the init nodes, an error *)
  cfg : node -> string -> pass World (list node * option error);
  (** [interp.scopes[s].sym[n].node], [None] when a lookup fails or is nil *)
  scope_sym_node : string -> string -> World -> option node;
  (** [n.kind != fileStmt] *)
  not_fileStmt : node -> World -> bool;
  (** [n.start] *)
  node_start : node -> World -> node;
  (** [setExec(n)] *)
  setExec : node -> pass World unit;
  (** [genRun(root)] *)
  genRun : node -> pass World (option error);
  (** [interp.resizeFrame()], on the frame data and the universe types *)
  resizeFrame : pass World unit;
  (** [interp.run(n, cf)]; the flag tells [interp.frame] from [nil] *)
  run : node -> bool -> pass World unit;
  (** [genGlobalVars([]*node{root}, interp.scopes[pkgName])] *)
  genGlobalVars : list node -> string -> pass World (node * option error);
  (** [genValue(root)(interp.frame)] *)
  genValue : node -> pass World reflect_Value;
  (** [genFunctionWrapper(n)(interp.frame)] *)
  genFunctionWrapper : node -> pass World reflect_Value;
  (** [hooksPath] and [interp.hooks.Parse(v)] *)
  hooksPath : string;
  hooks_Parse : gmap string reflect_Value -> World -> World;
  (** [identifier.FindString(k)], [identifier] a compiled pattern *)
  identifier_FindString : string -> string }.

Arguments ast {World}.
Arguments node_astDot {World}.
Arguments node_cfgDot {World}.
Arguments defaultDotCmd {World}.
Arguments gtaRetry {World}.
Arguments cfg {World}.
Arguments scope_sym_node {World}.
Arguments not_fileStmt {World}.
Arguments node_start {World}.
Arguments setExec {World}.
Arguments genRun {World}.
Arguments resizeFrame {World}.
Arguments run {World}.
Arguments genGlobalVars {World}.
Arguments genValue {World}.
Arguments genFunctionWrapper {World}.
Arguments hooksPath {World}.
Arguments hooks_Parse {World}.
Arguments identifier_FindString {World}.

(** The passes, as [eval] reaches them. *)
Inductive stage :=
| StAst | StAstDot | StGta | StCfg | StCfgDot | StSetExec
| StGenRun | StResizeFrame | StRun (n : node) | StGenGlobalVars
| StGenValue | StGenFunctionWrapper.

(** Generating the executor closures, and running nodes. [setExec] sets
    [exec], the generated function to execute, on the nodes it reaches
    from the one it is given. *)
Definition generates_or_runs (s : stage) : bool :=
  match s with
  | StSetExec | StGenRun | StResizeFrame | StRun _ | StGenGlobalVars
  | StGenValue | StGenFunctionWrapper => true
  | _ => false
  end.

(** ** Statement sequences that may panic *)

Definition M (S A : Type) : Type := S -> S * result A.

Definition ret {S A} (a : A) : M S A := fun s => (s, Ok a).

Definition bind {S A B} (m : M S A) (k : A -> M S B) : M S B :=
  fun s =>
    match m s with
    | (s', Ok a) => k a s'
    | (s', Panicking r rt) => (s', Panicking r rt)
    end.

Definition get {S} : M S S := fun s => (s, Ok s).
Definition modify {S} (f : S -> S) : M S unit := fun s => (f s, Ok tt).

Notation "x <- m ;; k" := (bind m (fun x => k))
  (at level 63, m at next level, right associativity).
Notation "m ;;; k" := (bind m (fun _ => k))
  (at level 63, right associativity).

(** The machine: the interpreter, the world of the other files, and the
    passes entered so far, oldest first. *)
Record machine (World : Type) := {
  interp : Interpreter;
  world : World;
  log : list stage }.
Arguments interp {World}.
Arguments world {World}.
Arguments log {World}.

Section Eval.

Context {World : Type} (P : Passes World).

(** The state of a call of [eval]: the machine and the named result [res]. *)
Definition estate : Type := machine World * reflect_Value.

(** Entering a pass of another file. *)
Definition call {A} (st : stage) (p : pass World A) : M estate A :=
  fun '(mc, res) =>
    let '(w, r) := p (interp mc) (world mc) in
    ({| interp := interp mc; world := w; log := (log mc ++ [st])%list |}, res, r).

Definition get_interp : M estate Interpreter :=
  fun '(mc, res) => (mc, res, Ok (interp mc)).

Definition get_world : M estate World :=
  fun '(mc, res) => (mc, res, Ok (world mc)).

Definition modify_interp (f : Interpreter -> Interpreter) : M estate unit :=
  fun '(mc, res) =>
    ({| interp := f (interp mc); world := world mc; log := log mc |}, res, Ok tt).

(** [res = v] *)
Definition set_res (v : reflect_Value) : M estate unit :=
  fun '(mc, _) => (mc, v, Ok tt).

Definition when {S} (b : bool) (m : M S unit) : M S unit :=
  if b then m else ret tt.

(** [dotCmd := interp.dotCmd; if dotCmd == "" { dotCmd = defaultDotCmd(interp.name, prefix) }] *)
Definition dot_command (i : Interpreter) (prefix : string) : string :=
  if String.eqb (dotCmd (iopt i)) EmptyString
  then defaultDotCmd P (name i) prefix
  else dotCmd (iopt i).

(** The block of [eval] under [interp.mutex.Lock()]: the package becomes
    visible under a path identical to its name, unless the universe
    already has a symbol of that name. *)
Definition publish (pkgName : string) (i : Interpreter) : Interpreter :=
  match sym (universe i) !! pkgName with
  | Some _ => i
  | None =>
      set_pkgNames (<[pkgName := pkgName]> (pkgNames i))
        (set_universe
           (set_sym pkgName {| kind := pkgSym; typ := Some (SrcPkgT pkgName) |} (universe i))
           (set_srcPkg (<[pkgName := pkgName]> (srcPkg i)) i))
  end.

(** [for _, n := range initNodes { interp.run(n, interp.frame) }] *)
Fixpoint run_all (ns : list node) : M estate unit :=
  match ns with
  | [] => ret tt
  | n :: ns' => call (StRun n) (run P n true) ;;; run_all ns'
  end.

(** The body of [eval] below its [defer]: it returns [err]; [res] is in
    the state. *)
Definition eval_body (src : string) (inc : bool) : M estate (option error) :=
  i <- get_interp ;;
  (* Parse source to AST. *)
  parsed <- call StAst (ast P src (name i) inc) ;;
  let '(pkgName, root, err) := parsed in
  match err, root with
  | Some _, _ => ret err
  | None, None => ret err
  | None, Some root =>
    when (astDot (iopt i))
      (call StAstDot (node_astDot P root (dot_command i "yaegi-ast-") (name i))) ;;;
    if astDot (iopt i) && noRun (iopt i) then ret err else
    (* Perform global types analysis. *)
    err <- call StGta (gtaRetry P [root] pkgName) ;;
    match err with
    | Some _ => ret err
    | None =>
      (* Annotate AST with CFG infos *)
      built <- call StCfg (cfg P root pkgName) ;;
      let '(initNodes, err) := built in
      match err with
      | Some _ =>
        when (cfgDot (iopt i))
          (call StCfgDot (node_cfgDot P root (dot_command i "yaegi-cfg-"))) ;;;
        ret err
      | None =>
        (* Add main to list of functions to run, after all inits *)
        w <- get_world ;;
        let initNodes :=
          match scope_sym_node P mainID mainID w with
          | Some m => (initNodes ++ [m])%list
          | None => initNodes
          end in
        (* REPL may skip package statement *)
        when (not_fileStmt P root w)
          (call StSetExec (setExec P (node_start P root w))) ;;;
        modify_interp (publish pkgName) ;;;
        when (cfgDot (iopt i))
          (call StCfgDot (node_cfgDot P root (dot_command i "yaegi-cfg-"))) ;;;
        if noRun (iopt i) then ret err else
        (* Generate node exec closures *)
        err <- call StGenRun (genRun P root) ;;
        match err with
        | Some _ => ret err
        | None =>
          (* Init interpreter execution memory frame *)
          modify_interp (fun i => set_frame_id (runid i) i) ;;;
          call StResizeFrame (resizeFrame P) ;;;
          (* Execute node closures *)
          call (StRun root) (run P root false) ;;;
          (* Wire and execute global vars *)
          wired <- call StGenGlobalVars (genGlobalVars P [root] pkgName) ;;
          let '(n, err) := wired in
          match err with
          | Some _ => ret err
          | None =>
            call (StRun n) (run P n false) ;;;
            run_all initNodes ;;;
            res <- call StGenValue (genValue P root) ;;
            set_res res ;;;
            (* If result is an interpreter node, wrap it in a runtime callable function *)
            match IsValid res, Interface_node res with
            | true, Some n =>
                res <- call StGenFunctionWrapper (genFunctionWrapper P n) ;;
                set_res res
            | _, _ => ret tt
            end ;;;
            ret err
          end
        end
      end
    end
  end.

(** [name] and [interp.name], before the body. *)
Definition eval_name (name_ : string) (i : Interpreter) : Interpreter :=
  let i1 := if String.eqb name_ EmptyString then i else set_name name_ i in
  if String.eqb (name i1) EmptyString then set_name DefaultSourceName i1 else i1.

(** The deferred function of [eval]: a recovered panic becomes the error
    [Panic{Value: r, Callers: pc[:n], Stack: debug.Stack()}], with [pc] an
    array of 64 addresses. *)
Definition eval_deferred (r : result (option error)) : option error :=
  match recover r with
  | Some (v, rt) =>
      Some (PanicError {| Value := v; Callers := firstn 64 (pcs rt); Stack := dump rt |})
  | None => match r with Ok err => err | Panicking _ _ => None end
  end.

Definition eval (src name_ : string) (inc : bool) (mc : machine World)
  : machine World * (reflect_Value * option error) :=
  let mc1 :=
    {| interp := eval_name name_ (interp mc); world := world mc; log := log mc |} in
  let '(mc2, res, r) := eval_body src inc (mc1, ZeroValue) in
  (mc2, (res, eval_deferred r)).

Definition Eval (src : string) (mc : machine World)
  : machine World * (reflect_Value * option error) :=
  eval src EmptyString true mc.

(** *** Cancellable evaluation *)

(** What [ctx.Err()] is once [ctx.Done()] is closed. *)
Inductive ctx_error := Canceled | DeadlineExceeded.

Definition ctx_Err (e : ctx_error) : error :=
  match e with
  | Canceled => context_Canceled
  | DeadlineExceeded => context_DeadlineExceeded
  end.

(** What the [select] of [EvalWithContext] receives: [ctx.Done()], closed
    before the goroutine that evaluates has closed its channel, or that
    channel. *)
Inductive race := CtxDone (e : ctx_error) | EvalDone.

(** [interp.done = make(chan struct{}); interp.cancelChan = !interp.opt.fastChan] *)
Definition EvalWithContext_setup (i : Interpreter) : Interpreter :=
  set_cancelChan (negb (fastChan (iopt i))) (set_done open_chan i).

(** On [CtxDone] the goroutine that evaluates [src] is left running: what
    it goes on writing is not part of the machine returned. *)
Definition EvalWithContext (r : race) (src : string) (mc : machine World)
  : machine World * result (reflect_Value * option error) :=
  let mc1 :=
    {| interp := EvalWithContext_setup (interp mc); world := world mc; log := log mc |} in
  match r with
  | CtxDone e =>
      match stop (interp mc1) with
      | Some i =>
          ({| interp := i; world := world mc1; log := log mc1 |},
           Ok (ZeroValue, Some (ctx_Err e)))
      | None =>
          (mc1, Panicking (Dyn "close of closed channel") {| pcs := []; dump := "" |})
      end
  | EvalDone =>
      let '(mc2, ve) := Eval src mc1 in (mc2, Ok ve)
  end.

(** *** Binary packages *)

(** [for s, sym := range v { interp.binPkg[k][s] = sym }], after
    [interp.binPkg[k]] is made when it is nil. *)
Definition Use_package (k : string) (v : gmap string reflect_Value) (b : Exports)
  : Exports :=
  <[k := map_fold (fun s sy p => <[s := sy]> p) (default ∅ (b !! k)) v]> b.

(** One turn of the loop of [Use] over [values]. *)
Definition Use_entry (k : string) (v : gmap string reflect_Value)
    (st : Interpreter * World) : Interpreter * World :=
  if String.eqb k (hooksPath P)
  then (st.1, hooks_Parse P v st.2)
  else (set_binPkg (Use_package k v (binPkg st.1)) st.1, st.2).

(** [p[name] = value], for each pair, when [interp.binPkg[path]] is not nil. *)
Definition redefine (path : string) (defs : list (string * reflect_Value))
    (b : Exports) : Exports :=
  match b !! path with
  | None => b
  | Some p => <[path := foldl (fun p d => <[d.1 := d.2]> p) p defs]> b
  end.

(** A closure or object that [fixStdio] builds over a stream. *)
Definition over (what : string) (stream : string) : reflect_Value :=
  HostValue (what +:+ " over " +:+ stream) None.

Definition fixStdio (i : Interpreter) : Interpreter :=
  match binPkg i !! "fmt" with
  | None => i
  | Some _ =>
      let sin := rname (stdin (iopt i)) in
      let sout := stdout (iopt i) in
      let serr := stderr (iopt i) in
      let b1 :=
        redefine "fmt"
          [ ("Print", over "fmt.Fprint" sout);
            ("Printf", over "fmt.Fprintf" sout);
            ("Println", over "fmt.Fprintln" sout);
            ("Scan", over "fmt.Fscan" sin);
            ("Scanf", over "fmt.Fscanf" sin);
            ("Scanln", over "fmt.Fscanln" sin) ] (binPkg i) in
      let b2 := redefine "flag" [ ("CommandLine", over "flag.FlagSet" serr) ] b1 in
      let b3 :=
        redefine "log"
          [ ("Fatal", over "log.Logger.Panic" serr);
            ("Fatalf", over "log.Logger.Panicf" serr);
            ("Fatalln", over "log.Logger.Panicln" serr);
            ("Flags", over "log.Logger.Flags" serr);
            ("Output", over "log.Logger.Output" serr);
            ("Panic", over "log.Logger.Panic" serr);
            ("Panicf", over "log.Logger.Panicf" serr);
            ("Panicln", over "log.Logger.Panicln" serr);
            ("Prefix", over "log.Logger.Prefix" serr);
            ("Print", over "log.Logger.Print" serr);
            ("Printf", over "log.Logger.Printf" serr);
            ("Println", over "log.Logger.Println" serr);
            ("SetFlags", over "log.Logger.SetFlags" serr);
            ("SetOutput", over "log.Logger.SetOutput" serr);
            ("SetPrefix", over "log.Logger.SetPrefix" serr);
            ("Writer", over "log.Logger.Writer" serr) ] b2 in
      let b4 :=
        redefine "os"
          [ ("Stdin", over "io.Reader" sin);
            ("Stdout", over "io.Writer" sout);
            ("Stderr", over "io.Writer" serr) ] b3 in
      set_binPkg b4 i
  end.

(** The symbols [fixStdio] assigns, by path and name, with the values it
    assigns to them. *)
Definition stdio_symbols (i : Interpreter) : list (string * string * reflect_Value) :=
  let sin := rname (stdin (iopt i)) in
  let sout := stdout (iopt i) in
  let serr := stderr (iopt i) in
  [ ("fmt", "Print", over "fmt.Fprint" sout);
    ("fmt", "Printf", over "fmt.Fprintf" sout);
    ("fmt", "Println", over "fmt.Fprintln" sout);
    ("fmt", "Scan", over "fmt.Fscan" sin);
    ("fmt", "Scanf", over "fmt.Fscanf" sin);
    ("fmt", "Scanln", over "fmt.Fscanln" sin);
    ("flag", "CommandLine", over "flag.FlagSet" serr);
    ("log", "Fatal", over "log.Logger.Panic" serr);
    ("log", "Fatalf", over "log.Logger.Panicf" serr);
    ("log", "Fatalln", over "log.Logger.Panicln" serr);
    ("log", "Flags", over "log.Logger.Flags" serr);
    ("log", "Output", over "log.Logger.Output" serr);
    ("log", "Panic", over "log.Logger.Panic" serr);
    ("log", "Panicf", over "log.Logger.Panicf" serr);
    ("log", "Panicln", over "log.Logger.Panicln" serr);
    ("log", "Prefix", over "log.Logger.Prefix" serr);
    ("log", "Print", over "log.Logger.Print" serr);
    ("log", "Printf", over "log.Logger.Printf" serr);
    ("log", "Println", over "log.Logger.Println" serr);
    ("log", "SetFlags", over "log.Logger.SetFlags" serr);
    ("log", "SetOutput", over "log.Logger.SetOutput" serr);
    ("log", "SetPrefix", over "log.Logger.SetPrefix" serr);
    ("log", "Writer", over "log.Logger.Writer" serr);
    ("os", "Stdin", over "io.Reader" sin);
    ("os", "Stdout", over "io.Writer" sout);
    ("os", "Stderr", over "io.Writer" serr) ].

(** [Use]: the loop over [values], in the order the map is ranged over,
    then [fixStdio] when [values] has the path [fmt]. *)
Definition Use (values : Exports) (mc : machine World) : machine World :=
  let st := map_fold Use_entry (interp mc, world mc) values in
  {| interp := match values !! "fmt" with Some _ => fixStdio st.1 | None => st.1 end;
     world := st.2;
     log := log mc |}.

End Eval.

(** [interp.binPkg[k][s]], when the symbol is there. *)
Definition binPkg_symbol (b : Exports) (k s : string) : option reflect_Value :=
  match b !! k with
  | Some p => p !! s
  | None => None
  end.

(** ** What a call of [eval] keeps *)

(** The fields of the interpreter that [eval] leaves alone. *)
Definition kept (i : Interpreter) : Z * opt * bool * chan * Exports * string :=
  (id i, iopt i, cancelChan i, done i, binPkg i, name i).

(** From the state [s], [m] leaves these fields as they are and enters
    only passes that satisfy [Q]. *)
Definition keeps {World A : Type} (Q : stage -> Prop)
    (m : M (machine World * reflect_Value) A) (s : machine World * reflect_Value) : Prop :=
  forall s' r, m s = (s', r) ->
    kept (interp s'.1) = kept (interp s.1)
    /\ exists l, log s'.1 = (log s.1 ++ l)%list /\ Forall Q l.

(** ** The read-eval-print loop *)

(** The line feed that [fmt.Fprintln] and the loop append. *)
Definition nl : string := String (Ascii.ascii_of_nat 10) EmptyString.

(** [ignoreScannerError] returns true if the error from Go scanner can be
    safely ignored to let the caller grab one more line before retrying to
    parse its input. *)
Definition ignoreScannerError (e : scanner_Error) (s : string) : bool :=
  let msg := Msg e in
  if GoStrings.HasSuffix msg "found 'EOF'" then true
  else if String.eqb msg "raw string literal not terminated" then true
  else if GoStrings.HasPrefix msg "expected operand, found '}'"
          && negb (GoStrings.HasSuffix s "}") then true
  else false.

(** What is written, in order: the writer and the text. *)
Definition writes : Type := list (Writer * string).

(** [getPrompt] returns a function which prints a prompt only if input is a
    terminal. *)
Definition getPrompt (in_ : Reader) (out : Writer) : reflect_Value -> writes :=
  match stat in_ with
  | None => fun _ => []
  | Some st =>
      match st with
      | StatInfo mode =>
          if negb (Z.land mode os_ModeCharDevice =? 0)%Z
          then fun v =>
                 ((if IsValid v then [(out, ": " +:+ Sprint_Value v +:+ nl)] else [])
                    ++ [(out, "> ")])%list
          else fun _ => []
      | StatError => fun _ => []
      end
  end.

(** The input is a terminal: it has a [Stat] method that returns no error
    and a mode with the character device bit. *)
Definition is_terminal (in_ : Reader) : bool :=
  match stat in_ with
  | Some (StatInfo mode) => Z.testbit mode 21
  | _ => false
  end.

(** The type switch of [REPL] on a non-nil [err]: the loop continues with
    the source kept, or something is written to [errs], or [e[0]] is out
    of range. *)
Inductive reported :=
| KeepReading
| Written (w : writes)
| OutOfRange.

Definition REPL_report (errs : Writer) (err : error) (line : string) : reported :=
  match err with
  | scanner_ErrorList e =>
      match e with
      | e0 :: _ =>
          if ignoreScannerError e0 line then KeepReading
          else Written
                 [(errs,
                   GoStrings.TrimPrefix (scanner_Error_string e0) (DefaultSourceName +:+ ":")
                     +:+ nl)]
      | [] => OutOfRange
      end
  | PanicError p =>
      Written [(errs, Sprint_any (Value p) +:+ nl); (errs, Stack p +:+ nl)]
  | _ => Written [(errs, Error_string err +:+ nl)]
  end.

(** A line received from [lines], and whether the evaluation of the source
    ends on the cancellation of [ctx] by an interrupt signal. *)
Record received := { line : string; interrupted : bool }.

(** The skip list of the preimport loop of [REPL]. *)
Definition ambiguous (name_ : string) : bool :=
  String.eqb name_ "" || String.eqb name_ "rand" || String.eqb name_ "scanner"
  || String.eqb name_ "template" || String.eqb name_ "pprof".

Section REPL.

Context {World : Type} (P : Passes World).

(** One turn of [for k := range interp.binPkg] at the head of [REPL]. *)
Definition preimport (sc : scope) (k : string) : scope :=
  let name_ := identifier_FindString P k in
  if ambiguous name_ then sc
  else set_sym name_ {| kind := pkgSym; typ := Some (BinPkgT k) |} sc.

(** The loop, over the keys in the order the map is ranged over. *)
Definition preimport_all (ks : list string) (sc : scope) : scope :=
  foldl preimport sc ks.

(** The interpreter after the loop. *)
Definition REPL_preimport (ks : list string) (i : Interpreter) : Interpreter :=
  set_universe (preimport_all ks (universe i)) i.

(** The variables of [REPL] that its loop reads and writes; [r_ctx]
    counts the contexts made by [context.WithCancel] after the first. *)
Record repl := {
  r_mc : machine World;
  r_src : string;
  r_v : reflect_Value;
  r_err : option error;
  r_ctx : nat;
  r_written : writes }.

(** A turn of the loop that received a line: it ends on [continue], at
    the end of the body after [prompt(v)], or on a panic. *)
Inductive turn :=
| Continued (s : repl)
| Prompted (s : repl)
| Panicked (r : any).

Definition REPL_turn (prompt : reflect_Value -> writes) (errs : Writer)
    (inp : received) (s : repl) : turn :=
  let src := r_src s +:+ line inp +:+ nl in
  let r := if interrupted inp then CtxDone Canceled else EvalDone in
  match EvalWithContext P r src (r_mc s) with
  | (_, Panicking x _) => Panicked x
  | (mc, Ok (v, err)) =>
      let rep :=
        match err with
        | Some e => REPL_report errs e (line inp)
        | None => Written []
        end in
      match rep with
      | KeepReading =>
          Continued {| r_mc := mc; r_src := src; r_v := v; r_err := err;
                       r_ctx := r_ctx s; r_written := r_written s |}
      | Written w =>
          Prompted {| r_mc := mc; r_src := ""; r_v := v; r_err := err;
                      r_ctx := if errors_Is_Canceled err then S (r_ctx s) else r_ctx s;
                      r_written := (r_written s ++ w ++ prompt v)%list |}
      | OutOfRange =>
          Panicked (Dyn "runtime error: index out of range [0] with length 0")
      end
  end.

(** The loop: [inputs] are the lines received before [end] is closed,
    on which [REPL] returns [v, err]. *)
Fixpoint REPL_loop (prompt : reflect_Value -> writes) (errs : Writer)
    (inputs : list received) (s : repl) : repl * result (reflect_Value * option error) :=
  match inputs with
  | [] => (s, Ok (r_v s, r_err s))
  | inp :: rest =>
      match REPL_turn prompt errs inp s with
      | Continued s' => REPL_loop prompt errs rest s'
      | Prompted s' => REPL_loop prompt errs rest s'
      | Panicked x => (s, Panicking x {| pcs := []; dump := "" |})
      end
  end.

(** [REPL]; [ks] is the order in which [interp.binPkg] is ranged over. *)
Definition REPL (ks : list string) (inputs : list received) (mc : machine World)
  : repl * result (reflect_Value * option error) :=
  let i := interp mc in
  let i1 := REPL_preimport ks i in
  let prompt := getPrompt (stdin (iopt i)) (stdout (iopt i)) in
  REPL_loop prompt (stderr (iopt i)) inputs
    {| r_mc := {| interp := i1; world := world mc; log := log mc |};
       r_src := "";
       r_v := ZeroValue;
       r_err := None;
       r_ctx := 0;
       r_written := prompt ZeroValue |}.

End REPL.

(** ** The command-line driver *)

Module Driver.

(** What [main] calls: [ioutil.ReadFile] ([None] on an error), and the
    interpreter it drives, [i.Eval(s)] under [i.Name] (the text of the
    error, if any) and [i.Repl(os.Stdin, os.Stdout)]. *)
Record Host := {
  ReadFile : string -> option string;
  Eval : string -> string -> result (option string);
  Repl : result unit }.

(** The command line after [flag.Parse()]: [-i], and [flag.Args()]. *)
Record CommandLine := { interactive : bool; args : list string }.

(** What [main] does that can be seen from outside. *)
Inductive action :=
| LogFatal (msg : string)
| Evaluates (name_ src : string)
| Println (text : string)
| StartsRepl.

(** The end of the process: [os.Exit(1)] in [log.Fatal], status 2 when
    the Go runtime ends the process on a panic, 0 when [main] returns. *)
Record finished := { status : Z; acts : list action }.

(** [s[:2]]: out of range when [s] has fewer than two bytes. *)
Definition first_two (s : string) : option string :=
  if (2 <=? String.length s)%nat then Some (GoStrings.slice_to s 2) else None.

(** The source [main] hands to [Eval] for the content [s] of the file:
    [if s[:2] == "#!" { s = strings.Replace(s, "#!", "//", 1) }]. *)
Definition script_source (s : string) : option string :=
  match first_two s with
  | None => None
  | Some h =>
      if String.eqb h "#!"
      then Some (GoStrings.Replace s "#!" "//" 1)
      else Some s
  end.

Definition repl_then (h : Host) (before : list action) : finished :=
  match Repl h with
  | Ok _ => {| status := 0; acts := (before ++ [StartsRepl])%list |}
  | Panicking _ _ => {| status := 2; acts := (before ++ [StartsRepl])%list |}
  end.

Definition main (h : Host) (c : CommandLine) : finished :=
  match args c with
  | file :: _ =>
      match ReadFile h file with
      | None =>
          {| status := 1; acts := [LogFatal ("Could not read file: " +:+ file)] |}
      | Some b =>
          match script_source b with
          | None => {| status := 2; acts := [] |}
          | Some s =>
              match Eval h file s with
              | Panicking _ _ => {| status := 2; acts := [Evaluates file s] |}
              | Ok err =>
                  let printed :=
                    match err with
                    | Some text => [Evaluates file s; Println text]
                    | None => [Evaluates file s]
                    end in
                  if interactive c then repl_then h printed
                  else {| status := 0; acts := printed |}
              end
          end
      end
  | [] => repl_then h []
  end.

End Driver.

(** ** Frames *)

(** [reflect.SelectCase], by the channel it receives from; [None] is the
    zero case. *)
Definition SelectCase : Type := option nat.

(** [frame], without its mutex. [anc] is the ancestor frame. *)
Inductive frame :=
| Frame (fid : Z) (anc : option frame) (data : list reflect_Value)
    (deferred : list (list reflect_Value)) (recovered : option any)
    (fdone : SelectCase).

Definition frame_id_of (f : frame) : Z := match f with Frame i _ _ _ _ _ => i end.
Definition frame_anc (f : frame) : option frame := match f with Frame _ a _ _ _ _ => a end.
Definition frame_data (f : frame) : list reflect_Value :=
  match f with Frame _ _ d _ _ _ => d end.
Definition frame_deferred (f : frame) : list (list reflect_Value) :=
  match f with Frame _ _ _ d _ _ => d end.
Definition frame_recovered (f : frame) : option any :=
  match f with Frame _ _ _ _ r _ => r end.
Definition frame_done (f : frame) : SelectCase := match f with Frame _ _ _ _ _ d => d end.

(** [newFrame(anc, len, id)]; [make] panics on a negative length, which
    is [None] here. *)
Definition newFrame (anc : option frame) (len : Z) (id_ : Z) : option frame :=
  if (len <? 0)%Z then None
  else
    Some (Frame id_ anc (replicate (Z.to_nat len) ZeroValue) [] None
            match anc with
            | Some a => frame_done a
            | None => None
            end).

(** [func (f *frame) runid() uint64] *)
Definition frame_runid (f : frame) : Z := frame_id_of f.

(** [func (f *frame) setrunid(id uint64)] *)
Definition frame_setrunid (id_ : Z) (f : frame) : frame :=
  match f with Frame _ a d df r dn => Frame id_ a d df r dn end.

(** [func (f *frame) clone() *frame] *)
Definition frame_clone (f : frame) : frame :=
  Frame (frame_runid f) (frame_anc f) (frame_data f) (frame_deferred f)
    (frame_recovered f) (frame_done f).

(** The frames made by [newFrame] below a frame. *)
Inductive made_below (root : frame) : frame -> Prop :=
| made_root : made_below root root
| made_child (parent f : frame) (len id_ : Z) :
    made_below root parent ->
    newFrame (Some parent) len id_ = Some f ->
    made_below root f.

(** ** Walking a tree of nodes *)

(** A node with its children: of [node], the index and [child]. *)
Inductive tree := Tree (index : Z) (child : list tree).

Definition tree_child (n : tree) : list tree := match n with Tree _ c => c end.

Section Walk.

Context {S : Type}.

(** [Walk] traverses AST n in depth first order, call cbin function at
    node entry and cbout function at node exit. The callbacks act on a
    state [S]; [None] is a nil callback. *)
Fixpoint Walk (in_ : option (tree -> S -> S * bool)) (out : option (tree -> S -> S))
    (n : tree) (s : S) {struct n} : S :=
  let entered := match in_ with Some f => f n s | None => (s, true) end in
  if entered.2 then
    let s2 :=
      (fix children (cs : list tree) (s : S) {struct cs} : S :=
         match cs with
         | [] => s
         | c :: cs' => children cs' (Walk in_ out c s)
         end) (tree_child n) entered.1 in
    match out with Some g => g n s2 | None => s2 end
  else entered.1.

End Walk.

(** The nodes of a tree, each after its children. *)
Fixpoint postorder (n : tree) : list tree :=
  match n with
  | Tree _ cs => (flat_map postorder cs ++ [n])%list
  end.

(** The nodes of a tree, each before its children. *)
Fixpoint preorder (n : tree) : list tree :=
  match n with
  | Tree _ cs => n :: flat_map preorder cs
  end.

(** The nodes [Walk] leaves at their exit when it enters only the nodes
    that satisfy [p]. *)
Fixpoint postorder_within (p : tree -> bool) (n : tree) : list tree :=
  if p n then
    match n with
    | Tree _ cs => (flat_map (postorder_within p) cs ++ [n])%list
    end
  else [].

(** ** The global frame *)

Section ResizeFrame.

Context {T V : Type} (zero : T -> V) (nilv : V).

(** [copy(dst, src)]: as many elements as the shorter of the two has. *)
Definition copy (dst src : list V) : list V :=
  (take (length dst) src ++ drop (length src) dst)%list.

(** [for j, t := range types { data[b+j] = reflect.New(t).Elem() }] *)
Fixpoint fill (b : nat) (types : list T) (data : list V) : list V :=
  match types with
  | [] => data
  | t :: types' => fill (Datatypes.S b) types' (<[b := zero t]> data)
  end.

(** [resizeFrame] resizes the global frame of interpreter: on the types of
    the universe and the data of the frame. [zero t] is
    [reflect.New(t).Elem()], [nilv] the zero [reflect.Value]. *)
Definition resizeFrame_data (types : list T) (data : list V) : list V :=
  let l := Z.of_nat (length types) in
  let b := Z.of_nat (length data) in
  if (l - b <=? 0)%Z then data
  else
    let fresh := replicate (length types) nilv in
    fill (length data) (drop (length data) types) (copy fresh data).

End ResizeFrame.

(** ** Wrappers *)

(** [getWrapper] returns the wrapper type of the corresponding interface,
    or nil if not found. [elem v] is [v.Type().Elem()] for a valid [v],
    [None] when [Elem] panics; [Type] panics on the zero Value, which is
    what the lookup of a missing symbol gives. *)
Definition getWrapper (elem : reflect_Value -> option string) (b : Exports)
    (pkgPath typeName : string) : result (option string) :=
  match b !! pkgPath with
  | None => Ok None
  | Some p =>
      match default ZeroValue (p !! ("_" +:+ typeName)) with
      | ZeroValue =>
          Panicking (Dyn "reflect: call of reflect.Value.Type on zero Value")
            {| pcs := []; dump := "" |}
      | HostValue r n =>
          match elem (HostValue r n) with
          | Some t => Ok (Some t)
          | None =>
              Panicking (Dyn "reflect: Elem of invalid type") {| pcs := []; dump := "" |}
          end
      end
  end.

(** ** Evaluating a file *)

Section EvalPath.

Context {World : Type} (P : Passes World).

(** [EvalPath] evaluates Go code located at path. [read] is
    [ioutil.ReadFile]: the content, or the error. *)
Definition EvalPath (read : string -> string + error) (path : string)
    (mc : machine World) : machine World * (reflect_Value * option error) :=
  match read path with
  | inr err => (mc, (ZeroValue, Some err))
  | inl b => eval P b path false mc
  end.

End EvalPath.

(** ** Where a call of [eval] ends *)

(** The place of a pass in the pipeline of [eval]. *)
Definition phase (st : stage) : nat :=
  match st with
  | StAst => 0
  | StAstDot => 1
  | StGta => 2
  | StCfg => 3
  | StSetExec => 4
  | StCfgDot => 5
  | StGenRun => 6
  | StResizeFrame => 7
  | StRun _ => 8
  | StGenGlobalVars => 8
  | StGenValue => 9
  | StGenFunctionWrapper => 10
  end.

(** The passes that [eval] cannot go past without entering them. *)
Definition milestones : list stage :=
  [StAst; StGta; StCfg; StGenRun; StResizeFrame; StGenGlobalVars].

(** From the state [s], [m] ends in a state that satisfies [J], whether it
    returns or panics. *)
Definition ends {World A : Type} (J : machine World * reflect_Value -> Prop)
    (m : M (machine World * reflect_Value) A) (s : machine World * reflect_Value) : Prop :=
  forall s' r, m s = (s', r) -> J s'.

(** What [eval], started on the interpreter [i0] with the log [log0],
    has done when its body ends in the state [s']: the passes it has
    entered, in the order of the pipeline and none without the
    milestones before it; the run id of the global frame. *)
Definition eval_end {World : Type} (i0 : Interpreter) (log0 : list stage)
    (s' : machine World * reflect_Value) : Prop :=
  exists l : list stage,
    log s'.1 = (log0 ++ l)%list
    /\ (exists l', l = StAst :: l')
    /\ StronglySorted (fun a b => phase a <= phase b)%nat l
    /\ (forall st m, In st l -> In m milestones -> (phase m < phase st)%nat -> In m l)
    /\ (In StResizeFrame l -> frame_id (interp s'.1) = id i0)
    /\ (~ In StGenRun l -> frame_id (interp s'.1) = frame_id i0).

(** ** A small instance of the passes, for examples *)

Module Toy.

Definition quiet {A} (a : A) : pass unit A := fun _ w => (w, Ok a).

Definition is_digit (c : ascii) : bool :=
  let n := nat_of_ascii c in ((48 <=? n) && (n <=? 57))%nat.

Definition is_letter (c : ascii) : bool :=
  let n := nat_of_ascii c in
  (((65 <=? n) && (n <=? 90)) || ((97 <=? n) && (n <=? 122)) || (n =? 95))%nat.

(** The last identifier of a path of ASCII letters, digits and
    punctuation: the longest run of letters, digits and underscores that
    ends the path and starts with a letter or an underscore.  [cur] is the
    identifier read so far. *)
Fixpoint last_identifier (cur : string) (k : string) : string :=
  match k with
  | EmptyString => cur
  | String c rest =>
      if is_letter c then last_identifier (cur +:+ String c EmptyString) rest
      else if is_digit c then
        last_identifier
          (if String.eqb cur EmptyString then cur else cur +:+ String c EmptyString) rest
      else last_identifier EmptyString rest
  end.

(** Passes without a world: the parser is [parse], every run ends as
    [exec] says, the value of the root is [value]. *)
Definition passes (parse : string -> string * option node * option error)
    (exec : node -> result unit) (value : reflect_Value) : Passes unit :=
  {| ast := fun src _ _ => quiet (parse src);
     node_astDot := fun _ _ _ => quiet tt;
     node_cfgDot := fun _ _ => quiet tt;
     defaultDotCmd := fun _ prefix => "dot -Tdot -o " +:+ prefix +:+ "out.dot";
     gtaRetry := fun _ _ => quiet None;
     cfg := fun _ _ => quiet ([], None);
     scope_sym_node := fun _ _ _ => None;
     not_fileStmt := fun _ _ => false;
     node_start := fun n _ => n;
     setExec := fun _ => quiet tt;
     genRun := fun _ => quiet None;
     resizeFrame := quiet tt;
     run := fun n _ _ w => (w, exec n);
     genGlobalVars := fun _ _ => quiet (1, None);
     genValue := fun _ => quiet value;
     genFunctionWrapper := fun _ => quiet value;
     hooksPath := "github.com/containous/yaegi";
     hooks_Parse := fun _ w => w;
     identifier_FindString := last_identifier EmptyString |}.

Definition os : OS :=
  {| Getenv := fun _ => "";
     os_Stdin := {| rname := "os.Stdin"; stat := Some (StatInfo (Z.shiftl 1 21)) |};
     os_Stdout := "os.Stdout";
     os_Stderr := "os.Stderr";
     build_Default := {| GOPATH := ""; BuildTags := [] |} |}.

Definition no_options : Options :=
  {| GoPath := ""; opt_BuildTags := []; Stdin := None; Stdout := None; Stderr := None |}.

(** A fresh interpreter on a terminal. *)
Definition fresh : machine unit :=
  {| interp := New os no_options; world := tt; log := [] |}.

(** The parser: a package clause alone parses to no root, an open brace
    is incomplete input, a stray closing brace is an error, anything
    else parses. *)
Definition parse (src : string) : string * option node * option error :=
  if GoStrings.HasPrefix src "package main" then ("main", None, None)
  else if GoStrings.HasSuffix src ("{" +:+ nl)
  then ("", None,
        Some (scanner_ErrorList [ {| Pos := "_.go:2:1"; Msg := "expected '}', found 'EOF'" |} ]))
  else if GoStrings.HasPrefix src "}"
  then ("", None,
        Some (scanner_ErrorList
                [ {| Pos := "_.go:1:1"; Msg := "expected declaration, found '}'" |} ]))
  else ("main", Some 0, None).

Definition runs (_ : node) : result unit := Ok tt.

Definition panics (_ : node) : result unit :=
  Panicking (Dyn "runtime error: integer divide by zero")
    {| pcs := [4198400; 4198464; 4198528]%Z; dump := "goroutine 1 [running]:" |}.


(** Passes whose parser parses everything and whose runs return. *)
Definition plain : Passes unit :=
  passes (fun _ => ("main", Some 0, None)) runs (HostValue "3" None).

(** The state of [REPL] at the head of its loop, on [fresh]. *)
Definition at_prompt : repl (World := unit) :=
  {| r_mc := fresh; r_src := ""; r_v := ZeroValue; r_err := None; r_ctx := 0;
     r_written := [("os.Stdout", "> ")] |}.

(** A driver host whose file cannot be read. *)
Definition unreadable : Driver.Host :=
  {| Driver.ReadFile := fun _ => None;
     Driver.Eval := fun _ _ => Ok None;
     Driver.Repl := Ok tt |}.

(** A driver host whose script fails to evaluate. *)
Definition failing : Driver.Host :=
  {| Driver.ReadFile := fun _ => Some "package main; func main() { undefined() }";
     Driver.Eval := fun _ _ => Ok (Some "1:28: undefined: undefined");
     Driver.Repl := Ok tt |}.

(** A driver host with an executable script. *)
Definition script : Driver.Host :=
  {| Driver.ReadFile := fun _ => Some ("#!" +:+ "/usr/bin/env yaegi" +:+ nl +:+ "package main");
     Driver.Eval := fun _ _ => Ok None;
     Driver.Repl := Ok tt |}.

Definition run_file (file : string) : Driver.CommandLine :=
  {| Driver.interactive := false; Driver.args := [file] |}.


(** Passes with the parser [parse]. *)
Definition reading : Passes unit := passes parse runs (HostValue "3" None).

Definition eof_error : scanner_Error :=
  {| Pos := "_.go:2:1"; Msg := "expected '}', found 'EOF'" |}.

Definition open_brace : received := {| line := "func f() {"; interrupted := false |}.


(** A process with [YAEGI_NO_RUN] set, and [YAEGI_AST_DOT] too when
    [dot] is. *)
Definition os_no_run (dot : bool) : OS :=
  {| Getenv := fun k =>
       if String.eqb k "YAEGI_NO_RUN" then "true"
       else if String.eqb k "YAEGI_AST_DOT" && dot then "1"
       else "";
     os_Stdin := os_Stdin os;
     os_Stdout := os_Stdout os;
     os_Stderr := os_Stderr os;
     build_Default := build_Default os |}.

Definition no_run (dot : bool) : machine unit :=
  {| interp := New (os_no_run dot) no_options; world := tt; log := [] |}.

(** Passes whose runs panic. *)
Definition dividing_by_zero : Passes unit := passes parse panics ZeroValue.


(** An export map with one symbol. *)
Definition one_symbol (path sy : string) (v : reflect_Value) : Exports :=
  {[ path := {[ sy := v ]} ]}.

(** [fresh] after [os.Stdout] has been registered. *)
Definition with_os : machine unit :=
  Use plain (one_symbol "os" "Stdout" (HostValue "os.Stdout" None)) fresh.


(** An interpreter whose registry has these paths, each without symbols. *)
Definition registered (paths : list string) : Interpreter :=
  set_binPkg (list_to_map ((fun p => (p, ∅)) <$> paths)) (New os no_options).


(** A pipe as standard input, and an interpreter reading from it. *)
Definition pipe : Reader := {| rname := "pipe"; stat := Some (StatInfo 4096) |}.

Definition piped : machine unit :=
  {| interp :=
       New os {| GoPath := ""; opt_BuildTags := []; Stdin := Some pipe;
                 Stdout := None; Stderr := None |};
     world := tt; log := [] |}.

Definition interrupt : received := {| line := ""; interrupted := true |}.

(** The passes [p] on the input of the loop, whose root is not a file
    statement. *)
Definition on_statements (p : Passes unit) : Passes unit :=
  {| ast := ast p;
     node_astDot := node_astDot p;
     node_cfgDot := node_cfgDot p;
     defaultDotCmd := defaultDotCmd p;
     gtaRetry := gtaRetry p;
     cfg := cfg p;
     scope_sym_node := scope_sym_node p;
     not_fileStmt := fun _ _ => true;
     node_start := node_start p;
     setExec := setExec p;
     genRun := genRun p;
     resizeFrame := resizeFrame p;
     run := run p;
     genGlobalVars := genGlobalVars p;
     genValue := genValue p;
     genFunctionWrapper := genFunctionWrapper p;
     hooksPath := hooksPath p;
     hooks_Parse := hooks_Parse p;
     identifier_FindString := identifier_FindString p |}.

Definition statements : Passes unit := on_statements plain.

(** A parser for which [#] is an illegal character, as it is for Go's
    scanner. *)
Definition parse_strict (src : string) : string * option node * option error :=
  if GoStrings.HasPrefix src "#"
  then ("", None,
        Some (scanner_ErrorList
                [ {| Pos := "hello.go:1:1"; Msg := "illegal character U+0023 '#'" |} ]))
  else parse src.

Definition strict : Passes unit := passes parse_strict runs (HostValue "3" None).

(** A file system with one executable script. *)
Definition read_script (_ : string) : string + error :=
  inl ("#!" +:+ "/usr/bin/env yaegi" +:+ nl +:+ "package main").

End Toy.

(** * Facts *)

(** ** Go's [strings] functions *)

Module GoStringsFacts.
Import GoStrings.

Lemma append_nil (b : string) : EmptyString +:+ b = b.
Proof. reflexivity. Qed.

Lemma append_cons (c : ascii) (a b : string) : String c a +:+ b = String c (a +:+ b).
Proof. reflexivity. Qed.

Lemma length_append (a b : string) :
  String.length (a +:+ b) = (String.length a + String.length b)%nat.
Proof.
  induction a as [|c a IH]; [done|].
  rewrite append_cons. simpl. by rewrite IH.
Qed.

Lemma substring_whole (x : string) : String.substring 0 (String.length x) x = x.
Proof. induction x as [|c x IH]; simpl; [done|]. by rewrite IH. Qed.

Lemma substring_append_l (p r : string) :
  String.substring 0 (String.length p) (p +:+ r) = p.
Proof.
  induction p as [|c p IH].
  - rewrite append_nil. by destruct r.
  - rewrite append_cons. simpl. by rewrite IH.
Qed.

Lemma substring_append_r (p x : string) (m : nat) :
  String.substring (String.length p) m (p +:+ x) = String.substring 0 m x.
Proof.
  induction p as [|c p IH]; [done|].
  rewrite append_cons. simpl. apply IH.
Qed.

Lemma substring_split (s : string) (n : nat) :
  (n <= String.length s)%nat ->
  s = String.substring 0 n s +:+ String.substring n (String.length s - n) s.
Proof.
  revert n. induction s as [|c s IH]; intros n Hn; simpl in *.
  - assert (n = 0)%nat as -> by lia. done.
  - destruct n as [|n]; simpl.
    + by rewrite append_nil, substring_whole.
    + rewrite append_cons. f_equal. apply IH. lia.
Qed.

Lemma length_substring (s : string) (n m : nat) :
  (n + m <= String.length s)%nat -> String.length (String.substring n m s) = m.
Proof.
  revert n m. induction s as [|c s IH]; intros n m H; simpl in *.
  - assert (n = 0 /\ m = 0)%nat as [-> ->] by lia. done.
  - destruct n as [|n]; [destruct m as [|m]|]; simpl; try done.
    + f_equal. apply (IH 0%nat). lia.
    + apply IH. lia.
Qed.

Lemma HasPrefix_true (s prefix : string) :
  HasPrefix s prefix = true <-> exists r, s = prefix +:+ r.
Proof.
  unfold HasPrefix, slice_to. rewrite andb_true_iff, Nat.leb_le, String.eqb_eq. split.
  - intros [Hlen Heq].
    exists (String.substring (String.length prefix) (String.length s - String.length prefix) s).
    rewrite <- Heq at 1. by apply substring_split.
  - intros [r ->]. rewrite length_append, substring_append_l. split; [lia|done].
Qed.

Lemma HasSuffix_true (s suffix : string) :
  HasSuffix s suffix = true <-> exists p, s = p +:+ suffix.
Proof.
  unfold HasSuffix, slice_from. rewrite andb_true_iff, Nat.leb_le, String.eqb_eq. split.
  - intros [Hlen Heq].
    exists (String.substring 0 (String.length s - String.length suffix) s).
    rewrite <- Heq at 2. apply substring_split. lia.
  - intros [p ->]. rewrite length_append. split; [lia|].
    replace (String.length p + String.length suffix - String.length suffix)%nat
      with (String.length p) by lia.
    replace (String.length p + String.length suffix - String.length p)%nat
      with (String.length suffix) by lia.
    by rewrite substring_append_r, substring_whole.
Qed.

Lemma replace_from_done (old new s : string) : replace_from old new s 0 0 = s.
Proof. by destruct s. Qed.

Lemma replace_from_skip (old new a rest : string) :
  replace_from old new (a +:+ rest) (String.length a) 0 = rest.
Proof.
  induction a as [|c a IH].
  - rewrite append_nil. apply replace_from_done.
  - rewrite append_cons. simpl. apply IH.
Qed.

(** An occurrence of a non-empty [old] at the head of the string is the
    one [Replace] rewrites first. *)
Lemma Replace_leading (old new rest : string) :
  old <> EmptyString ->
  Replace (old +:+ rest) old new 1 = new +:+ rest.
Proof.
  intros Hne. destruct old as [|c old']; [done|].
  unfold Replace. rewrite append_cons.
  cbn [replace_from].
  assert (HasPrefix (String c (old' +:+ rest)) (String c old') = true) as ->.
  { apply HasPrefix_true. exists rest. by rewrite append_cons. }
  f_equal.
  replace (String.length (String c old') - 1)%nat with (String.length old')
    by (simpl; lia).
  apply replace_from_skip.
Qed.

End GoStringsFacts.

(** ** The loop reads on after an incomplete input *)

Lemma ignoreScannerError_true (e : scanner_Error) (s : string) :
  ignoreScannerError e s = true <->
  (exists p, Msg e = p +:+ "found 'EOF'")
  \/ Msg e = "raw string literal not terminated"
  \/ ((exists r, Msg e = "expected operand, found '}'" +:+ r)
      /\ ~ (exists p, s = p +:+ "}")).
Proof.
  unfold ignoreScannerError.
  pose proof (GoStringsFacts.HasSuffix_true (Msg e) "found 'EOF'") as Heof.
  pose proof (GoStringsFacts.HasPrefix_true (Msg e) "expected operand, found '}'") as Hop.
  pose proof (GoStringsFacts.HasSuffix_true s "}") as Hbr.
  pose proof (String.eqb_eq (Msg e) "raw string literal not terminated") as Hraw.
  destruct (GoStrings.HasSuffix (Msg e) "found 'EOF'").
  { split; [intros _; left; by apply Heof | done]. }
  destruct (String.eqb (Msg e) "raw string literal not terminated").
  { split; [intros _; right; left; by apply Hraw | done]. }
  destruct (GoStrings.HasPrefix (Msg e) "expected operand, found '}'");
    destruct (GoStrings.HasSuffix s "}"); simpl.
  - split; [done|]. intros [H|[H|[_ H]]].
    + apply Heof in H. done.
    + apply Hraw in H. done.
    + destruct H. by apply Hbr.
  - split; [|done]. intros _. right; right. split; [by apply Hop|].
    intros H. apply Hbr in H. done.
  - split; [done|]. intros [H|[H|[H _]]].
    + apply Heof in H. done.
    + apply Hraw in H. done.
    + apply Hop in H. done.
  - split; [done|]. intros [H|[H|[H _]]].
    + apply Heof in H. done.
    + apply Hraw in H. done.
    + apply Hop in H. done.
Qed.

(** C1. [ignoreScannerError e s] is true exactly when the message of [e]
    ends with [found 'EOF'], is [raw string literal not terminated], or
    starts with [expected operand, found '}'] while [s] does not end in a
    closing brace.  In a turn of the loop of [REPL] whose evaluation fails
    with a scanner error list headed by [e], the loop continues with the
    accumulated source kept and nothing written when
    [ignoreScannerError e line] holds for the line just read; otherwise
    it writes the error to the error stream, empties the source and
    prompts. *)
Theorem C1_repl_reads_on_iff_incomplete (e : scanner_Error) :
  (forall s : string,
      ignoreScannerError e s = true <->
      (exists p, Msg e = p +:+ "found 'EOF'")
      \/ Msg e = "raw string literal not terminated"
      \/ ((exists r, Msg e = "expected operand, found '}'" +:+ r)
          /\ ~ (exists p, s = p +:+ "}")))
  /\ (forall (World : Type) (P : Passes World) (prompt : reflect_Value -> writes)
        (errs : Writer) (inp : received) (st : repl) (mc : machine World)
        (v : reflect_Value) (more : list scanner_Error),
         EvalWithContext P (if interrupted inp then CtxDone Canceled else EvalDone)
           (r_src st +:+ line inp +:+ nl) (r_mc st)
         = (mc, Ok (v, Some (scanner_ErrorList (e :: more)))) ->
         REPL_turn P prompt errs inp st =
         if ignoreScannerError e (line inp)
         then Continued
                {| r_mc := mc; r_src := r_src st +:+ line inp +:+ nl; r_v := v;
                   r_err := Some (scanner_ErrorList (e :: more));
                   r_ctx := r_ctx st; r_written := r_written st |}
         else Prompted
                {| r_mc := mc; r_src := ""; r_v := v;
                   r_err := Some (scanner_ErrorList (e :: more));
                   r_ctx := r_ctx st;
                   r_written :=
                     (r_written st
                        ++ [(errs,
                             GoStrings.TrimPrefix (scanner_Error_string e)
                               (DefaultSourceName +:+ ":") +:+ nl)]
                        ++ prompt v)%list |}).
Proof.
  split; [intros s; apply ignoreScannerError_true|].
  intros World P prompt errs inp st mc v more Heval.
  unfold REPL_turn. rewrite Heval. simpl.
  by destruct (ignoreScannerError e (line inp)).
Qed.

Lemma C1_repl_reads_on_witness :
  let turn_end := EvalWithContext Toy.reading EvalDone
                    (r_src Toy.at_prompt +:+ line Toy.open_brace +:+ nl) Toy.fresh in
  turn_end = (turn_end.1, Ok (ZeroValue, Some (scanner_ErrorList [Toy.eof_error])))
  /\ REPL_turn Toy.reading (getPrompt (os_Stdin Toy.os) "os.Stdout") "os.Stderr"
       Toy.open_brace Toy.at_prompt
     = Continued
         {| r_mc := turn_end.1;
            r_src := "func f() {" +:+ nl;
            r_v := ZeroValue;
            r_err := Some (scanner_ErrorList [Toy.eof_error]);
            r_ctx := 0;
            r_written := [("os.Stdout", "> ")] |}.
Proof.
  intros turn_end.
  assert (turn_end = (turn_end.1, Ok (ZeroValue, Some (scanner_ErrorList [Toy.eof_error]))))
    as Hend by (vm_compute; reflexivity).
  split; [exact Hend|].
  exact (proj2 (C1_repl_reads_on_iff_incomplete Toy.eof_error) unit Toy.reading
           (getPrompt (os_Stdin Toy.os) "os.Stdout") "os.Stderr"
           Toy.open_brace Toy.at_prompt turn_end.1 ZeroValue [] Hend).
Defined.

(** ** The driver *)

Lemma script_source_shebang (rest : string) :
  Driver.script_source ("#!" +:+ rest) = Some ("//" +:+ rest).
Proof.
  unfold Driver.script_source, Driver.first_two, GoStrings.slice_to.
  rewrite GoStringsFacts.length_append.
  change (String.length "#!") with 2%nat.
  replace (2 <=? 2 + String.length rest)%nat with true by (symmetry; apply Nat.leb_le; lia).
  rewrite (GoStringsFacts.substring_append_l "#!" rest : String.substring 0 2 _ = _).
  change (String.eqb "#!" "#!") with true. cbv iota.
  by rewrite GoStringsFacts.Replace_leading.
Qed.

(** A source that does not start with the two bytes goes to the evaluator
    as it is. *)
Lemma script_source_plain (s : string) :
  (2 <= String.length s)%nat ->
  GoStrings.HasPrefix s "#!" = false ->
  Driver.script_source s = Some s.
Proof.
  intros Hlen Hpre. unfold Driver.script_source, Driver.first_two.
  replace (2 <=? String.length s)%nat with true by (symmetry; by apply Nat.leb_le).
  unfold GoStrings.HasPrefix in Hpre. change (String.length "#!") with 2%nat in Hpre.
  replace (2 <=? String.length s)%nat with true in Hpre by (symmetry; by apply Nat.leb_le).
  simpl in Hpre. by rewrite Hpre.
Qed.

(** C8, as the driver has it. The status is 1 when the file cannot be read
    ([log.Fatal]), and 0 when the file is read and evaluated, whether
    the evaluation returns an error, which is printed, or not. *)
Theorem C8_driver_exit_status (h : Driver.Host) (c : Driver.CommandLine)
    (file : string) (more : list string) :
  Driver.args c = file :: more ->
  (Driver.ReadFile h file = None -> Driver.status (Driver.main h c) = 1%Z)
  /\ (forall (b s : string) (err : option string),
         Driver.ReadFile h file = Some b ->
         Driver.script_source b = Some s ->
         Driver.Eval h file s = Ok err ->
         (Driver.interactive c = true -> exists u, Driver.Repl h = Ok u) ->
         Driver.status (Driver.main h c) = 0%Z
         /\ (forall text, err = Some text ->
               In (Driver.Println text) (Driver.acts (Driver.main h c)))).
Proof.
  intros Hargs. split.
  - intros Hread. unfold Driver.main. by rewrite Hargs, Hread.
  - intros b s err Hread Hsrc Heval Hrepl.
    unfold Driver.main. rewrite Hargs, Hread, Hsrc, Heval.
    destruct (Driver.interactive c).
    + destruct (Hrepl eq_refl) as [u Hu]. unfold Driver.repl_then. rewrite Hu. simpl.
      split; [done|]. intros text ->. apply in_or_app. left. simpl. auto.
    + simpl. split; [done|]. intros text ->. simpl. auto.
Qed.

Lemma C8_driver_exit_status_witness :
  (Driver.args (Toy.run_file "missing.go") = ["missing.go"]
   /\ Driver.ReadFile Toy.unreadable "missing.go" = None
   /\ Driver.status (Driver.main Toy.unreadable (Toy.run_file "missing.go")) = 1%Z)
  /\ (Driver.args (Toy.run_file "bad.go") = ["bad.go"]
      /\ Driver.Eval Toy.failing "bad.go" "package main; func main() { undefined() }"
         = Ok (Some "1:28: undefined: undefined")
      /\ Driver.status (Driver.main Toy.failing (Toy.run_file "bad.go")) = 0%Z).
Proof.
  split.
  - split; [reflexivity|]. split; [reflexivity|].
    exact (proj1 (C8_driver_exit_status Toy.unreadable (Toy.run_file "missing.go")
                    "missing.go" [] eq_refl) eq_refl).
  - split; [reflexivity|]. split; [reflexivity|].
    exact (proj1 (proj2 (C8_driver_exit_status Toy.failing (Toy.run_file "bad.go")
                           "bad.go" [] eq_refl)
                    "package main; func main() { undefined() }"
                    "package main; func main() { undefined() }"
                    (Some "1:28: undefined: undefined")
                    eq_refl eq_refl eq_refl
                    (fun H : false = true => False_ind _ (Bool.diff_false_true H)))).
Defined.

(** The driver ends with status 1, not 2, on a file it cannot read, and
    with status 0, not 1, on a script whose evaluation returns an error. *)
Lemma C8_driver_exit_status_counterexample :
  (Driver.ReadFile Toy.unreadable "missing.go" = None
   /\ Driver.status (Driver.main Toy.unreadable (Toy.run_file "missing.go")) <> 2%Z)
  /\ (Driver.Eval Toy.failing "bad.go" "package main; func main() { undefined() }"
      = Ok (Some "1:28: undefined: undefined")
      /\ Driver.status (Driver.main Toy.failing (Toy.run_file "bad.go")) <> 1%Z).
Proof. repeat split; vm_compute; congruence. Qed.

(** ** The evaluator *)

Section EvalFacts.

Context {World : Type} (P : Passes World).

Implicit Types (s : machine World * reflect_Value) (Q : stage -> Prop).

Lemma keeps_ret Q {A} (a : A) s : keeps Q (ret a) s.
Proof.
  intros s' r [= <- <-]. split; [done|]. exists []. by rewrite app_nil_r.
Qed.

Lemma keeps_bind Q {A B} (m : M _ A) (k : A -> M _ B) s :
  keeps Q m s ->
  (forall a s1, m s = (s1, Ok a) -> keeps Q (k a) s1) ->
  keeps Q (bind m k) s.
Proof.
  intros Hm Hk s' r. unfold bind.
  destruct (m s) as [s1 [a|x rt]] eqn:E.
  - destruct (Hm _ _ E) as (Hc & l1 & Hl1 & HQ1).
    intros Hka. destruct (Hk a s1 eq_refl _ _ Hka) as (Hc' & l2 & Hl2 & HQ2).
    split; [congruence|]. exists (l1 ++ l2)%list.
    rewrite Hl2, Hl1, app_assoc. split; [done|]. by apply Forall_app.
  - intros [= <- <-]. apply (Hm _ _ E).
Qed.

Lemma keeps_call Q {A} (st : stage) (p : pass World A) s :
  Q st -> keeps Q (call st p) s.
Proof.
  intros HQ s' r. destruct s as [mc res]. unfold call.
  destruct (p (interp mc) (world mc)) as [w x]. intros [= <- <-]. simpl.
  split; [done|]. exists [st]. split; [done|]. by constructor.
Qed.

Lemma call_Ok {A} (st : stage) (p : pass World A) s s1 (a : A) :
  call st p s = (s1, Ok a) -> interp s1.1 = interp s.1.
Proof.
  destruct s as [mc res]. unfold call.
  destruct (p (interp mc) (world mc)) as [w x]. by intros [= <- _].
Qed.

Lemma keeps_get_interp Q s : keeps Q get_interp s.
Proof.
  intros s' r. destruct s as [mc res]. intros [= <- <-].
  split; [done|]. exists []. by rewrite app_nil_r.
Qed.

Lemma keeps_get_world Q s : keeps Q get_world s.
Proof.
  intros s' r. destruct s as [mc res]. intros [= <- <-].
  split; [done|]. exists []. by rewrite app_nil_r.
Qed.

Lemma keeps_modify_interp Q (f : Interpreter -> Interpreter) s :
  (forall i, kept (f i) = kept i) -> keeps Q (modify_interp f) s.
Proof.
  intros Hf s' r. destruct s as [mc res]. intros [= <- <-]. simpl.
  split; [apply Hf|]. exists []. by rewrite app_nil_r.
Qed.

Lemma keeps_set_res Q (v : reflect_Value) s : keeps Q (set_res v) s.
Proof.
  intros s' r. destruct s as [mc res]. intros [= <- <-]. simpl.
  split; [done|]. exists []. by rewrite app_nil_r.
Qed.

Lemma keeps_when Q (b : bool) (m : M _ unit) s :
  (b = true -> keeps Q m s) -> keeps Q (when b m) s.
Proof. destruct b; simpl; [auto|intros _; apply keeps_ret]. Qed.

Lemma keeps_run_all Q (ns : list node) s :
  (forall n, Q (StRun n)) -> keeps Q (run_all P ns) s.
Proof.
  intros HQ. revert s. induction ns as [|n ns IH]; intros s; simpl.
  - apply keeps_ret.
  - apply keeps_bind; [by apply keeps_call|]. intros _ s1 _. apply IH.
Qed.

Lemma kept_publish (pkgName : string) (i : Interpreter) : kept (publish pkgName i) = kept i.
Proof. unfold publish. by destruct (sym (universe i) !! pkgName). Qed.

Lemma kept_set_frame_id (i : Interpreter) : kept (set_frame_id (runid i) i) = kept i.
Proof. done. Qed.


Ltac keeps_step :=
  lazymatch goal with
  | |- keeps _ (bind _ _) _ => apply keeps_bind; [|intros ? ? ?]
  | |- keeps _ (ret _) _ => apply keeps_ret
  | |- keeps _ (call _ _) _ => apply keeps_call
  | |- keeps _ (when _ _) _ => apply keeps_when; intros ?
  | |- keeps _ get_world _ => apply keeps_get_world
  | |- keeps _ (modify_interp _) _ => apply keeps_modify_interp
  | |- keeps _ (set_res _) _ => apply keeps_set_res
  | |- keeps _ (run_all _ _) _ => apply keeps_run_all
  | |- keeps _ (match ?x with _ => _ end) _ => destruct x eqn:?
  end.

Lemma eval_body_keeps Q (src : string) (inc : bool) s :
  Q StAst ->
  (astDot (iopt (interp s.1)) = true -> Q StAstDot) ->
  (astDot (iopt (interp s.1)) && noRun (iopt (interp s.1)) = false ->
   Q StGta /\ Q StCfg /\ Q StCfgDot /\ Q StSetExec) ->
  (noRun (iopt (interp s.1)) = false -> forall st, generates_or_runs st = true -> Q st) ->
  keeps Q (eval_body P src inc) s.
Proof.
  intros HAst HAstDot HCompile HRun. unfold eval_body.
  apply keeps_bind; [apply keeps_get_interp|].
  intros i s0 Hi.
  assert (s0 = s /\ i = interp s.1) as [-> ->].
  { destruct s as [mc res]. by injection Hi as <- <-. }
  clear Hi.
  repeat keeps_step.
  all: try solve
         [ done
         | apply kept_publish
         | by apply HAstDot
         | destruct HCompile as (? & ? & ? & ?); [assumption || reflexivity | assumption]
         | intros; apply HRun; [assumption || reflexivity | reflexivity] ].
Qed.

Lemma bind_Ok {A B} (m : M (machine World * reflect_Value) A) (k : A -> M _ B) s s1 a :
  m s = (s1, Ok a) -> bind m k s = k a s1.
Proof. intros H. unfold bind. by rewrite H. Qed.

Lemma call_eq {A} (st : stage) (p : pass World A) (mc : machine World)
    (res : reflect_Value) w r :
  p (interp mc) (world mc) = (w, r) ->
  call st p (mc, res)
  = ({| interp := interp mc; world := w; log := (log mc ++ [st])%list |}, res, r).
Proof. intros H. unfold call. by rewrite H. Qed.

Lemma kept_eval_name (name_ : string) (i : Interpreter) :
  iopt (eval_name name_ i) = iopt i
  /\ cancelChan (eval_name name_ i) = cancelChan i
  /\ id (eval_name name_ i) = id i
  /\ done (eval_name name_ i) = done i
  /\ binPkg (eval_name name_ i) = binPkg i.
Proof.
  unfold eval_name.
  destruct (String.eqb name_ ""); simpl;
    match goal with |- context [String.eqb ?x ""] => destruct (String.eqb x "") end; done.
Qed.

(** [eval] leaves the run id, the options, [cancelChan], [done] and the
    binary packages of the interpreter as they are, and only adds to the
    log. *)
Lemma eval_keeps (src name_ : string) (inc : bool) (mc : machine World) :
  let i := interp (eval P src name_ inc mc).1 in
  id i = id (interp mc) /\ iopt i = iopt (interp mc)
  /\ cancelChan i = cancelChan (interp mc) /\ done i = done (interp mc)
  /\ binPkg i = binPkg (interp mc).
Proof.
  unfold eval.
  set (mc1 := {| interp := eval_name name_ (interp mc); world := world mc; log := log mc |}).
  destruct (eval_body P src inc (mc1, ZeroValue)) as [[mc2 res] r] eqn:E. simpl.
  assert (keeps (fun _ => True) (eval_body P src inc) (mc1, ZeroValue)) as K
    by (apply eval_body_keeps; done).
  destruct (K _ _ E) as [Hk _]. simpl in Hk.
  destruct (kept_eval_name name_ (interp mc)) as (? & ? & ? & ? & ?).
  unfold kept in Hk. injection Hk as -> -> -> -> -> _. done.
Qed.

(** When the body returns, [eval] returns what the body left in [res] and
    [err]. *)
Lemma eval_returned (src name_ : string) (inc : bool) (mc mc' : machine World)
    (res : reflect_Value) (err : option error) :
  eval_body P src inc
    ({| interp := eval_name name_ (interp mc); world := world mc; log := log mc |}, ZeroValue)
  = (mc', res, Ok err) ->
  eval P src name_ inc mc = (mc', (res, err)).
Proof. intros H. unfold eval. by rewrite H. Qed.

(** [eval] reads its source through the parser only, and hands it to the
    parser as it is. *)
Lemma eval_reads_source_through_ast (src1 src2 name_ : string) (inc : bool)
    (mc : machine World) :
  (forall n b, ast P src1 n b = ast P src2 n b) ->
  eval P src1 name_ inc mc = eval P src2 name_ inc mc.
Proof.
  intros H. unfold eval, eval_body.
  rewrite !(bind_Ok get_interp _ (_, ZeroValue) _ _ eq_refl).
  by rewrite H.
Qed.

(** C3. When the body of [eval] panics with the value [v], [eval] returns
    to its caller: the result is what [res] held, and the error is a
    [Panic] with [v] as its value, at most 64 addresses of the stack as
    its callers and the text of the stack as its stack buffer. *)
Theorem C3_panic_is_returned_as_error (src name_ : string) (inc : bool)
    (mc mc' : machine World) (res : reflect_Value) (v : any) (rt : runtime_stack) :
  eval_body P src inc
    ({| interp := eval_name name_ (interp mc); world := world mc; log := log mc |}, ZeroValue)
  = (mc', res, Panicking v rt) ->
  exists p : Panic,
    eval P src name_ inc mc = (mc', (res, Some (PanicError p)))
    /\ Value p = v
    /\ Callers p = firstn 64 (pcs rt)
    /\ (length (Callers p) <= 64)%nat
    /\ Stack p = dump rt
    /\ is_Panic (PanicError p) = true.
Proof.
  intros H.
  exists {| Value := v; Callers := firstn 64 (pcs rt); Stack := dump rt |}.
  unfold eval. rewrite H. simpl. repeat split. apply firstn_le_length.
Qed.

(** C2. When the [select] of [EvalWithContext] receives [ctx.Done()], the
    run id of the interpreter is one more than it was, within 64 bits,
    the channel [done] is closed, and the call returns the zero value
    with the error of the context, which is not a [Panic]. *)
Theorem C2_cancelled_evaluation (e : ctx_error) (src : string) (mc : machine World) :
  id (interp (EvalWithContext P (CtxDone e) src mc).1) = uint64 (id (interp mc) + 1)
  /\ done (interp (EvalWithContext P (CtxDone e) src mc).1) = closed_chan
  /\ (EvalWithContext P (CtxDone e) src mc).2 = Ok (ZeroValue, Some (ctx_Err e))
  /\ is_Panic (ctx_Err e) = false
  /\ (ctx_Err e = context_Canceled \/ ctx_Err e = context_DeadlineExceeded).
Proof.
  unfold EvalWithContext, EvalWithContext_setup, stop. simpl.
  repeat split; destruct e; auto.
Qed.

(** C4. [EvalWithContext] sets [cancelChan] to the negation of the option
    [fastChan] before it starts the evaluation, and the interpreter still
    has it so when the call returns, on either outcome of the [select];
    [New] reads [fastChan] as a boolean from [YAEGI_FAST_CHAN]. *)
Theorem C4_fastChan_disables_cancellable_chan (r : race) (src : string) (mc : machine World) :
  cancelChan (EvalWithContext_setup (interp mc)) = negb (fastChan (iopt (interp mc)))
  /\ cancelChan (interp (EvalWithContext P r src mc).1) = negb (fastChan (iopt (interp mc)))
  /\ (forall (os : OS) (options : Options),
         fastChan (iopt (New os options)) = strconv.ParseBool_ (Getenv os "YAEGI_FAST_CHAN")).
Proof.
  split; [done|]. split; [|done].
  unfold EvalWithContext. destruct r as [e|].
  - done.
  - unfold Eval.
    set (mc1 := {| interp := EvalWithContext_setup (interp mc);
                   world := world mc; log := log mc |}).
    pose proof (eval_keeps src "" true mc1) as (_ & _ & Hc & _).
    destruct (eval P src "" true mc1) as [mc2 ve]. simpl in *. by rewrite Hc.
Qed.

(** C5, as [eval] has it. With [noRun] set, [eval] calls neither
    [genRun] nor [resizeFrame], runs no node and generates no value: of
    the passes that generate closures or run nodes it may only enter
    [setExec].  With [astDot] set as well it returns after the dump of the
    tree, so that only the parser and the dump are entered; with [astDot]
    unset, and a parser, a global type analysis and a CFG pass that return
    without an error, it goes through the three of them, in this order,
    then calls [setExec] on the start of the root when the root is not a
    file statement, and after that at most dumps the CFG. *)
Theorem C5_noRun_compiles_only (src name_ : string) (inc : bool) (mc : machine World) :
  noRun (iopt (interp mc)) = true ->
  exists l : list stage,
    log (eval P src name_ inc mc).1 = (log mc ++ l)%list
    /\ Forall (fun st => generates_or_runs st = true -> st = StSetExec) l
    /\ (astDot (iopt (interp mc)) = true -> Forall (fun st => st = StAst \/ st = StAstDot) l)
    /\ (astDot (iopt (interp mc)) = false ->
        forall (w1 w2 w3 : World) (pkgName : string) (root : node) (initNodes : list node),
          let i := eval_name name_ (interp mc) in
          ast P src (name i) inc i (world mc) = (w1, Ok (pkgName, Some root, None)) ->
          gtaRetry P [root] pkgName i w1 = (w2, Ok None) ->
          cfg P root pkgName i w2 = (w3, Ok (initNodes, None)) ->
          exists l', l = ([StAst; StGta; StCfg] ++ l')%list
            /\ if not_fileStmt P root w3
               then exists l'', l' = StSetExec :: l'' /\ Forall (fun st => st = StCfgDot) l''
               else Forall (fun st => st = StCfgDot) l').
Proof.
  intros HnoRun.
  destruct (kept_eval_name name_ (interp mc)) as (Hopt & _).
  set (mc1 := {| interp := eval_name name_ (interp mc); world := world mc; log := log mc |}).
  set (Q := fun st => (generates_or_runs st = true -> st = StSetExec)
                      /\ (astDot (iopt (interp mc)) = true -> st = StAst \/ st = StAstDot)).
  assert (keeps Q (eval_body P src inc) (mc1, ZeroValue)) as K.
  { apply eval_body_keeps; simpl; rewrite ?Hopt, ?HnoRun.
    - split; [done|]. auto.
    - intros _. split; [done|]. auto.
    - rewrite andb_true_r. intros Hdot. subst Q. simpl. rewrite Hdot.
      repeat split; done.
    - done. }
  unfold eval. fold mc1.
  destruct (eval_body P src inc (mc1, ZeroValue)) as [[mc2 res] r] eqn:E.
  destruct (K _ _ E) as (_ & l & Hl & HQ). simpl in Hl |- *. unfold Q in HQ.
  exists l. split; [done|]. split; [|split].
  - eapply Forall_impl; [exact HQ|]. by intros st [? _].
  - intros Hdot. eapply Forall_impl; [exact HQ|]. intros st [_ H]. by apply H.
  - intros Hdot w1 w2 w3 pkgName root initNodes.
    set (i := eval_name name_ (interp mc)). intros Hast Hgta Hcfg.
    assert (noRun (iopt i) = true) as HnoRun' by (subst i; by rewrite Hopt).
    revert E. unfold eval_body.
    rewrite (bind_Ok get_interp _ (mc1, ZeroValue) (mc1, ZeroValue) i eq_refl).
    erewrite bind_Ok by (apply call_eq; exact Hast).
    cbv beta iota zeta.
    replace (astDot (iopt i)) with false by (subst i; by rewrite Hopt, Hdot).
    rewrite (bind_Ok (when false _) _ _ _ tt eq_refl).
    rewrite andb_false_l.
    erewrite bind_Ok by (apply call_eq; exact Hgta).
    cbv beta iota zeta.
    erewrite bind_Ok by (apply call_eq; exact Hcfg).
    cbv beta iota zeta.
    match goal with
    | |- bind get_world _ ?s = _ -> _ =>
        rewrite (bind_Ok get_world _ s s w3 eq_refl)
    end.
    cbv beta zeta. rewrite HnoRun'.
    set (s3 := ({| interp := i; world := w3;
                   log := (((log mc ++ [StAst]) ++ [StGta]) ++ [StCfg])%list |}, ZeroValue)).
    assert (forall s : machine World * reflect_Value,
               keeps (fun st => st = StCfgDot)
                 (modify_interp (publish pkgName) ;;;
                  when (cfgDot (iopt i))
                    (call StCfgDot (node_cfgDot P root (dot_command P i "yaegi-cfg-"))) ;;;
                  ret (@None error)) s) as Krest.
    { intros s. repeat keeps_step; solve [done | apply kept_publish]. }
    destruct (not_fileStmt P root w3); simpl.
    + destruct (setExec P (node_start P root w3) i w3) as [w4 [[]|x rt]] eqn:Hset.
      * erewrite bind_Ok by (apply call_eq; exact Hset).
        intros E. destruct (Krest _ _ _ E) as (_ & l'' & Hl'' & Hdotted).
        simpl in Hl''. exists (StSetExec :: l''). split; [|by exists l''].
        rewrite Hl in Hl''. rewrite <- !app_assoc in Hl''. simpl in Hl''.
        by apply app_inv_head in Hl''.
      * unfold bind at 1. erewrite call_eq by exact Hset.
        intros [= <- _ _]. simpl in Hl. exists [StSetExec]. split; [|by exists []].
        rewrite <- !app_assoc in Hl. simpl in Hl. by apply app_inv_head in Hl.
    + rewrite (bind_Ok (ret tt) _ s3 s3 tt eq_refl).
      intros E. destruct (Krest _ _ _ E) as (_ & l' & Hl' & Hdotted).
      simpl in Hl'. exists l'. split; [|done].
      rewrite Hl in Hl'. rewrite <- !app_assoc in Hl'. simpl in Hl'.
      by apply app_inv_head in Hl'.
Qed.

End EvalFacts.

Lemma C3_panic_is_returned_as_error_witness :
  let body := eval_body Toy.dividing_by_zero "1/0" true
                ({| interp := eval_name "" (interp Toy.fresh);
                    world := world Toy.fresh; log := log Toy.fresh |}, ZeroValue) in
  body = (body.1.1, ZeroValue,
          Panicking (Dyn "runtime error: integer divide by zero")
            {| pcs := [4198400; 4198464; 4198528]%Z; dump := "goroutine 1 [running]:" |})
  /\ exists p : Panic,
      eval Toy.dividing_by_zero "1/0" "" true Toy.fresh
      = (body.1.1, (ZeroValue, Some (PanicError p)))
      /\ Value p = Dyn "runtime error: integer divide by zero"
      /\ Callers p = firstn 64 [4198400; 4198464; 4198528]%Z
      /\ (length (Callers p) <= 64)%nat
      /\ Stack p = "goroutine 1 [running]:"
      /\ is_Panic (PanicError p) = true.
Proof.
  intros body.
  assert (body = (body.1.1, ZeroValue,
                  Panicking (Dyn "runtime error: integer divide by zero")
                    {| pcs := [4198400; 4198464; 4198528]%Z;
                       dump := "goroutine 1 [running]:" |}))
    as Hbody by (vm_compute; reflexivity).
  split; [exact Hbody|].
  exact (C3_panic_is_returned_as_error Toy.dividing_by_zero "1/0" "" true Toy.fresh
           body.1.1 ZeroValue (Dyn "runtime error: integer divide by zero")
           {| pcs := [4198400; 4198464; 4198528]%Z; dump := "goroutine 1 [running]:" |}
           Hbody).
Defined.

Lemma C5_noRun_compiles_only_witness :
  noRun (iopt (interp (Toy.no_run false))) = true
  /\ not_fileStmt Toy.statements 0 tt = true
  /\ exists l : list stage,
      log (eval Toy.statements "x := 1" "" true (Toy.no_run false)).1 = l
      /\ Forall (fun st => generates_or_runs st = true -> st = StSetExec) l
      /\ exists l', l = ([StAst; StGta; StCfg] ++ l')%list
           /\ exists l'', l' = StSetExec :: l'' /\ Forall (fun st => st = StCfgDot) l''.
Proof.
  split; [reflexivity|]. split; [reflexivity|].
  destruct (C5_noRun_compiles_only Toy.statements "x := 1" "" true (Toy.no_run false) eq_refl)
    as (l & Hl & Hquiet & _ & Hcompile).
  exists l. split; [exact Hl|]. split; [exact Hquiet|].
  exact (Hcompile eq_refl tt tt tt "main" 0 [] eq_refl eq_refl eq_refl).
Defined.

(** With [YAEGI_NO_RUN] and [YAEGI_AST_DOT] both set, [Eval] of a source
    that parses, on passes that all succeed, returns after the dump of the
    tree: the global type analysis and the CFG pass are not entered.  With
    [YAEGI_NO_RUN] alone, [Eval] of an input of the loop, whose root is
    not a file statement, enters [setExec], which sets closures to
    execute, before it returns. *)
Lemma C5_noRun_compiles_only_counterexample :
  (noRun (iopt (interp (Toy.no_run true))) = true
   /\ (Toy.plain).(ast) "x := 1" "_.go" true (interp (Toy.no_run true)) tt
      = (tt, Ok ("main", Some 0, None))
   /\ log (Eval Toy.plain "x := 1" (Toy.no_run true)).1 = [StAst; StAstDot]
   /\ ~ In StGta (log (Eval Toy.plain "x := 1" (Toy.no_run true)).1)
   /\ ~ In StCfg (log (Eval Toy.plain "x := 1" (Toy.no_run true)).1))
  /\ (noRun (iopt (interp (Toy.no_run false))) = true
      /\ not_fileStmt Toy.statements 0 tt = true
      /\ log (Eval Toy.statements "x := 1" (Toy.no_run false)).1
         = [StAst; StGta; StCfg; StSetExec]
      /\ generates_or_runs StSetExec = true
      /\ In StSetExec (log (Eval Toy.statements "x := 1" (Toy.no_run false)).1)).
Proof.
  assert (log (Eval Toy.plain "x := 1" (Toy.no_run true)).1 = [StAst; StAstDot]) as H
    by (vm_compute; reflexivity).
  assert (log (Eval Toy.statements "x := 1" (Toy.no_run false)).1
          = [StAst; StGta; StCfg; StSetExec]) as H'
    by (vm_compute; reflexivity).
  rewrite H, H'. split.
  - repeat split; try reflexivity; simpl; intros [?|[?|[]]]; discriminate.
  - repeat split; try reflexivity. simpl. tauto.
Qed.

(** ** The shebang of a script *)

(** C7, as the driver and the evaluator have it. When the content of the
    file given to the driver starts with the two bytes of a shebang, the
    source the driver hands to the evaluator is the content with these two
    bytes replaced by the two slashes of a line comment, the rest of the
    first line and all other lines as they are.  The evaluator rewrites
    nothing: [eval], and so [Eval] and [EvalPath], hands its source to the
    parser as it is, shebang included; the error of the parser on it is
    the error returned, and the source is read through the parser only. *)
Theorem C7_driver_rewrites_shebang {World : Type} (P : Passes World)
    (h : Driver.Host) (c : Driver.CommandLine) (file : string) (more : list string)
    (rest : string) :
  Driver.args c = file :: more ->
  Driver.ReadFile h file = Some ("#!" +:+ rest) ->
  (Driver.script_source ("#!" +:+ rest) = Some ("//" +:+ rest)
   /\ exists then_ : list Driver.action,
       Driver.acts (Driver.main h c) = Driver.Evaluates file ("//" +:+ rest) :: then_)
  /\ (forall (name_ : string) (inc : bool) (mc : machine World) (w : World)
        (pkgName : string) (root : option node) (e : error),
        let i := eval_name name_ (interp mc) in
        ast P ("#!" +:+ rest) (name i) inc i (world mc) = (w, Ok (pkgName, root, Some e)) ->
        eval P ("#!" +:+ rest) name_ inc mc
        = ({| interp := i; world := w; log := (log mc ++ [StAst])%list |},
           (ZeroValue, Some e)))
  /\ (forall (read : string -> string + error) (path : string) (mc : machine World),
        read path = inl ("#!" +:+ rest) ->
        EvalPath P read path mc = eval P ("#!" +:+ rest) path false mc)
  /\ (forall (mc : machine World),
        Eval P ("#!" +:+ rest) mc = eval P ("#!" +:+ rest) "" true mc)
  /\ (forall (src2 name_ : string) (inc : bool) (mc : machine World),
        (forall n b, ast P ("#!" +:+ rest) n b = ast P src2 n b) ->
        eval P ("#!" +:+ rest) name_ inc mc = eval P src2 name_ inc mc).
Proof.
  intros Hargs Hread. split; [split; [apply script_source_shebang|]|].
  - unfold Driver.main. rewrite Hargs, Hread, script_source_shebang.
    destruct (Driver.Eval h file ("//" +:+ rest)) as [[text|]|x rt]; simpl.
    + destruct (Driver.interactive c); [unfold Driver.repl_then; destruct (Driver.Repl h)|];
        simpl; eauto.
    + destruct (Driver.interactive c); [unfold Driver.repl_then; destruct (Driver.Repl h)|];
        simpl; eauto.
    + eauto.
  - split; [|split; [|split]].
    + intros name_ inc mc w pkgName root e i Hast. unfold eval. fold i.
      set (mc1 := {| interp := i; world := world mc; log := log mc |}).
      assert (eval_body P ("#!" +:+ rest) inc (mc1, ZeroValue)
              = ({| interp := i; world := w; log := (log mc ++ [StAst])%list |},
                 ZeroValue, Ok (Some e))) as ->; [|done].
      unfold eval_body.
      rewrite (bind_Ok get_interp _ (mc1, ZeroValue) (mc1, ZeroValue) i eq_refl).
      by rewrite (bind_Ok (call StAst (ast P ("#!" +:+ rest) (name i) inc)) _
                    (mc1, ZeroValue) _ _ (call_eq StAst _ mc1 ZeroValue _ _ Hast)).
    + intros read path mc Hpath. unfold EvalPath. by rewrite Hpath.
    + done.
    + intros src2 name_ inc mc H. by apply eval_reads_source_through_ast.
Qed.

Lemma C7_driver_rewrites_shebang_witness :
  let rest := "/usr/bin/env yaegi" +:+ nl +:+ "package main" in
  let illegal :=
    scanner_ErrorList
      [ {| Pos := "hello.go:1:1"; Msg := "illegal character U+0023 '#'" |} ] in
  Driver.args (Toy.run_file "hello.go") = ["hello.go"]
  /\ Driver.ReadFile Toy.script "hello.go" = Some ("#!" +:+ rest)
  /\ (exists then_ : list Driver.action,
         Driver.acts (Driver.main Toy.script (Toy.run_file "hello.go"))
         = Driver.Evaluates "hello.go" ("//" +:+ rest) :: then_)
  /\ eval Toy.strict ("#!" +:+ rest) "hello.go" false Toy.fresh
     = ({| interp := eval_name "hello.go" (interp Toy.fresh); world := tt; log := [StAst] |},
        (ZeroValue, Some illegal)).
Proof.
  intros rest illegal.
  pose proof (C7_driver_rewrites_shebang Toy.strict Toy.script (Toy.run_file "hello.go")
                "hello.go" [] rest eq_refl eq_refl) as ((_ & Hdriver) & Heval & _).
  split; [reflexivity|]. split; [reflexivity|]. split; [exact Hdriver|].
  exact (Heval "hello.go" false Toy.fresh tt "" None illegal eq_refl).
Defined.

(** [EvalPath] on a script that starts with a shebang hands it to the
    parser as it is: a parser for which [#] is an illegal character
    returns its error, where the same source with the two slashes for the
    two bytes evaluates without an error. *)
Lemma C7_driver_rewrites_shebang_counterexample :
  let rest := "/usr/bin/env yaegi" +:+ nl +:+ "package main" in
  Toy.read_script "hello.go" = inl ("#!" +:+ rest)
  /\ (EvalPath Toy.strict Toy.read_script "hello.go" Toy.fresh).2.2
     = Some (scanner_ErrorList
               [ {| Pos := "hello.go:1:1"; Msg := "illegal character U+0023 '#'" |} ])
  /\ (eval Toy.strict ("//" +:+ rest) "hello.go" false Toy.fresh).2.2 = None
  /\ EvalPath Toy.strict Toy.read_script "hello.go" Toy.fresh
     <> eval Toy.strict ("//" +:+ rest) "hello.go" false Toy.fresh.
Proof.
  intros rest.
  assert ((EvalPath Toy.strict Toy.read_script "hello.go" Toy.fresh).2.2
          = Some (scanner_ErrorList
                    [ {| Pos := "hello.go:1:1"; Msg := "illegal character U+0023 '#'" |} ]))
    as H1 by (vm_compute; reflexivity).
  assert ((eval Toy.strict ("//" +:+ rest) "hello.go" false Toy.fresh).2.2 = None) as H2
    by (vm_compute; reflexivity).
  split; [reflexivity|]. split; [exact H1|]. split; [exact H2|].
  intros Heq. rewrite Heq, H2 in H1. discriminate.
Qed.

(** ** The prompt *)

Lemma land_ModeCharDevice (mode : Z) :
  negb (Z.land mode os_ModeCharDevice =? 0)%Z = Z.testbit mode 21.
Proof.
  unfold os_ModeCharDevice.
  destruct (Z.testbit mode 21) eqn:Hbit.
  - apply negb_true_iff, Z.eqb_neq. intros H0.
    assert (Z.testbit (Z.land mode (Z.shiftl 1 21)) 21 = true) as Hb.
    { rewrite Z.land_spec, Hbit. reflexivity. }
    rewrite H0 in Hb. by rewrite Z.bits_0 in Hb.
  - apply negb_false_iff, Z.eqb_eq. apply Z.bits_inj'. intros n Hn.
    rewrite Z.land_spec, Z.bits_0.
    destruct (Z.eq_dec n 21%Z) as [->|Hne].
    + by rewrite Hbit.
    + rewrite Z.shiftl_spec by done.
      replace (Z.testbit 1 (n - 21)) with false; [apply andb_false_r|].
      symmetry. destruct (Z.lt_ge_cases (n - 21)%Z 0%Z) as [Hlt|Hge].
      * by apply Z.testbit_neg_r.
      * apply Z.bits_above_log2; [done|]. simpl. lia.
Qed.

Lemma getPrompt_terminal (in_ : Reader) (out : Writer) (v : reflect_Value) :
  getPrompt in_ out v =
  if is_terminal in_
  then ((if IsValid v then [(out, ": " +:+ Sprint_Value v +:+ nl)] else [])
          ++ [(out, "> ")])%list
  else [].
Proof.
  unfold getPrompt, is_terminal.
  destruct (stat in_) as [[|mode]|]; try done.
  rewrite land_ModeCharDevice. by destruct (Z.testbit mode 21).
Qed.

Section PromptFacts.

Context {World : Type} (P : Passes World).

(** C6, as the loop has it. In a turn whose evaluation returns the value
    [v] and the error [err]: when there is no error, or an error that
    the loop reports, the turn writes the report to the error stream,
    nothing when there is no error, and then, on a terminal, the line of
    [v] when [v] is valid, and the prompt; on an input that is not a
    terminal, cannot be asked for its status or has no [Stat] method, it
    writes nothing after the report.  When the error is an incomplete
    input the turn writes nothing, not even the prompt, and keeps the
    source. *)
Theorem C6_what_a_turn_prints (in_ : Reader) (out errs : Writer) (inp : received)
    (st : repl (World := World)) (mc : machine World) (v : reflect_Value)
    (err : option error) :
  EvalWithContext P (if interrupted inp then CtxDone Canceled else EvalDone)
    (r_src st +:+ line inp +:+ nl) (r_mc st) = (mc, Ok (v, err)) ->
  let value_and_prompt : writes :=
    if is_terminal in_
    then ((if IsValid v then [(out, ": " +:+ Sprint_Value v +:+ nl)] else [])
            ++ [(out, "> ")])%list
    else [] in
  let ended (report : writes) :=
    Prompted {| r_mc := mc; r_src := ""; r_v := v; r_err := err;
                r_ctx := if errors_Is_Canceled err then S (r_ctx st) else r_ctx st;
                r_written := (r_written st ++ report ++ value_and_prompt)%list |} in
  match err with
  | None => REPL_turn P (getPrompt in_ out) errs inp st = ended []
  | Some e =>
      match REPL_report errs e (line inp) with
      | Written report =>
          REPL_turn P (getPrompt in_ out) errs inp st = ended report
          /\ report <> [] /\ Forall (fun w => w.1 = errs) report
      | KeepReading =>
          REPL_turn P (getPrompt in_ out) errs inp st
          = Continued {| r_mc := mc; r_src := r_src st +:+ line inp +:+ nl;
                         r_v := v; r_err := err; r_ctx := r_ctx st;
                         r_written := r_written st |}
      | OutOfRange =>
          exists x, REPL_turn P (getPrompt in_ out) errs inp st = Panicked x
      end
  end.
Proof.
  intros Heval value_and_prompt ended. unfold REPL_turn. rewrite Heval.
  assert (getPrompt in_ out v = value_and_prompt) as Hprompt
    by apply getPrompt_terminal.
  destruct err as [e|]; [|unfold ended; by rewrite Hprompt].
  assert (forall report, REPL_report errs e (line inp) = Written report ->
                         report <> [] /\ Forall (fun w => w.1 = errs) report) as Hrep.
  { intros report. destruct e as [l|p| | |msg]; cbn [REPL_report].
    - destruct l as [|e0 more]; [done|].
      destruct (ignoreScannerError e0 (line inp)); [done|].
      intros [= <-]. split; [done|]. by repeat constructor.
    - intros [= <-]. split; [done|]. by repeat constructor.
    - intros [= <-]. split; [done|]. by repeat constructor.
    - intros [= <-]. split; [done|]. by repeat constructor.
    - intros [= <-]. split; [done|]. by repeat constructor. }
  destruct (REPL_report errs e (line inp)) as [|report|].
  - done.
  - split; [unfold ended; by rewrite Hprompt|]. by apply Hrep.
  - eauto.
Qed.

End PromptFacts.

Lemma C6_what_a_turn_prints_witness :
  let inp := {| line := "1+2"; interrupted := false |} in
  let last := EvalWithContext Toy.reading EvalDone
                (r_src Toy.at_prompt +:+ line inp +:+ nl) (r_mc Toy.at_prompt) in
  last = (last.1, Ok (HostValue "3" None, None))
  /\ REPL_turn Toy.reading (getPrompt (os_Stdin Toy.os) "os.Stdout") "os.Stderr"
       inp Toy.at_prompt
     = Prompted {| r_mc := last.1; r_src := ""; r_v := HostValue "3" None; r_err := None;
                   r_ctx := 0;
                   r_written := [("os.Stdout", "> "); ("os.Stdout", ": 3" +:+ nl);
                                 ("os.Stdout", "> ")] |}.
Proof.
  intros inp last.
  assert (last = (last.1, Ok (HostValue "3" None, None))) as Hlast
    by (vm_compute; reflexivity).
  split; [exact Hlast|].
  exact (C6_what_a_turn_prints Toy.reading (os_Stdin Toy.os) "os.Stdout" "os.Stderr"
           inp Toy.at_prompt last.1 (HostValue "3" None) None Hlast).
Defined.

(** On a terminal, the turn that reads [func f() {] evaluates to no value
    and prints nothing, not even the prompt. *)
Lemma C6_what_a_turn_prints_counterexample :
  is_terminal (os_Stdin Toy.os) = true
  /\ exists st' : repl,
      REPL_turn Toy.reading (getPrompt (os_Stdin Toy.os) "os.Stdout") "os.Stderr"
        Toy.open_brace Toy.at_prompt = Continued st'
      /\ IsValid (r_v st') = false
      /\ r_written st' = r_written Toy.at_prompt
      /\ r_written st' <> (r_written Toy.at_prompt ++ [("os.Stdout", "> ")])%list.
Proof.
  split; [reflexivity|].
  eexists. split; [vm_compute; reflexivity|].
  split; [reflexivity|]. split; [reflexivity|]. simpl. discriminate.
Qed.

(** The first scenario of the loop: [1+2] on a terminal. *)
Example repl_prints_value_and_prompt :
  r_written (REPL Toy.reading [""] [ {| line := "1+2"; interrupted := false |} ] Toy.fresh).1
  = [("os.Stdout", "> "); ("os.Stdout", ": 3" +:+ nl); ("os.Stdout", "> ")].
Proof. vm_compute. reflexivity. Qed.

(** ** Binary packages *)

Section UseFacts.

Context {World : Type} (P : Passes World).

Lemma Use_package_union (k : string) (v : gmap string reflect_Value) (b : Exports) :
  Use_package k v b = <[k := v ∪ default ∅ (b !! k)]> b.
Proof.
  unfold Use_package. f_equal.
  apply (map_fold_weak_ind (fun r m => r = m ∪ default ∅ (b !! k))).
  - by rewrite (left_id_L ∅ (∪)).
  - intros s sy m r Hs ->. by rewrite insert_union_l.
Qed.

(** The loop of [Use]: a path other than [hooksPath] holds the symbols of
    [values] over those it had, [hooksPath] is not touched, and the hooks
    are parsed from the entry of [hooksPath]. *)
Lemma Use_loop (values : Exports) (i : Interpreter) (w : World) :
  let st := map_fold (Use_entry P) (i, w) values in
  (forall k,
      binPkg st.1 !! k =
      if String.eqb k (hooksPath P) then binPkg i !! k
      else match values !! k with
           | Some v => Some (v ∪ default ∅ (binPkg i !! k))
           | None => binPkg i !! k
           end)
  /\ st.2 = match values !! hooksPath P with
            | Some v => hooks_Parse P v w
            | None => w
            end
  /\ iopt st.1 = iopt i.
Proof.
  apply (map_fold_weak_ind (fun st (m : Exports) =>
    (forall k,
        binPkg st.1 !! k =
        if String.eqb k (hooksPath P) then binPkg i !! k
        else match m !! k with
             | Some v => Some (v ∪ default ∅ (binPkg i !! k))
             | None => binPkg i !! k
             end)
    /\ st.2 = match m !! hooksPath P with
              | Some v => hooks_Parse P v w
              | None => w
              end
    /\ iopt st.1 = iopt i)).
  - simpl. split; [|done]. intros k. rewrite lookup_empty. by destruct (String.eqb k _).
  - intros k0 v m [i1 w1] Hk0 (Hb & Hw & Ho). simpl in *.
    unfold Use_entry. simpl.
    destruct (String.eqb_spec k0 (hooksPath P)) as [->|Hne]; simpl.
    + split; [|split; [|done]].
      * intros k. rewrite Hb. destruct (String.eqb_spec k (hooksPath P)) as [->|Hk]; [done|].
        by rewrite lookup_insert_ne.
      * rewrite lookup_insert_eq. rewrite Hk0 in Hw. by rewrite Hw.
    + split; [|split; [|done]].
      * intros k. rewrite Use_package_union.
        destruct (decide (k0 = k)) as [<-|Hk].
        -- rewrite !lookup_insert_eq.
           destruct (String.eqb_spec k0 (hooksPath P)) as [?|_]; [done|].
           pose proof (Hb k0) as Hb0. rewrite Hk0 in Hb0.
           destruct (String.eqb_spec k0 (hooksPath P)) as [?|_]; [done|].
           by rewrite Hb0.
        -- rewrite !lookup_insert_ne by done. apply Hb.
      * by rewrite lookup_insert_ne.
Qed.

Lemma Use_entry_commute (k1 k2 : string) (v1 v2 : gmap string reflect_Value)
    (st : Interpreter * World) :
  k1 <> k2 ->
  Use_entry P k1 v1 (Use_entry P k2 v2 st) = Use_entry P k2 v2 (Use_entry P k1 v1 st).
Proof.
  intros Hne. destruct st as [i w]. unfold Use_entry. simpl.
  destruct (String.eqb_spec k1 (hooksPath P)) as [H1|H1];
    destruct (String.eqb_spec k2 (hooksPath P)) as [H2|H2]; simpl; try done.
  - congruence.
  - f_equal. unfold set_binPkg. simpl. f_equal.
    rewrite !Use_package_union.
    rewrite !lookup_insert_ne by done. by apply insert_insert_ne.
Qed.

(** The turns of the loop of [Use] commute: whatever the order in which
    the export map is ranged over, the loop ends in the same state. *)
Lemma Use_any_order (values : Exports) (l : list (string * gmap string reflect_Value))
    (i : Interpreter) (w : World) :
  l ≡ₚ map_to_list values ->
  foldr (uncurry (Use_entry P)) (i, w) l = map_fold (Use_entry P) (i, w) values.
Proof.
  intros Hl. rewrite map_fold_foldr. symmetry.
  apply (foldr_permutation (=) (uncurry (Use_entry P))).
  - solve_proper.
  - intros j1 [k1 v1] j2 [k2 v2] st Hj H1 H2. simpl.
    apply Use_entry_commute. intros ->.
    pose proof (NoDup_fst_map_to_list values) as Hnd.
    apply Hj. eapply NoDup_lookup; [exact Hnd| |].
    + rewrite list_lookup_fmap, H1. reflexivity.
    + rewrite list_lookup_fmap, H2. reflexivity.
  - by symmetry.
Qed.

(** When [values] has the path [fmt], [Use] ends on [fixStdio]. *)
Lemma Use_then_fixStdio (values : Exports) (mc : machine World) :
  is_Some (values !! "fmt") ->
  interp (Use P values mc)
  = fixStdio (map_fold (Use_entry P) (interp mc, world mc) values).1.
Proof. intros [v Hv]. unfold Use. simpl. by rewrite Hv. Qed.

End UseFacts.

(** ** The packages preimported by the loop *)

Section PreimportFacts.

Context {World : Type} (P : Passes World).

Lemma preimport_lookup (sc : scope) (k n : string) :
  sym (preimport P sc k) !! n =
  if negb (ambiguous (identifier_FindString P k)) && String.eqb (identifier_FindString P k) n
  then Some {| kind := pkgSym; typ := Some (BinPkgT k) |}
  else sym sc !! n.
Proof.
  unfold preimport. destruct (ambiguous (identifier_FindString P k)); simpl; [done|].
  destruct (String.eqb_spec (identifier_FindString P k) n) as [->|Hne].
  - apply lookup_insert_eq.
  - by apply lookup_insert_ne.
Qed.

Lemma preimport_all_snoc (ks : list string) (k : string) (sc : scope) :
  preimport_all P (ks ++ [k]) sc = preimport P (preimport_all P ks sc) k.
Proof. unfold preimport_all. by rewrite foldl_app. Qed.

(** A name that is the name of no key of the loop, or that the loop
    skips, is bound after the loop as it was before. *)
Lemma preimport_all_other (ks : list string) (sc : scope) (n : string) :
  (forall k, k ∈ ks -> identifier_FindString P k = n -> ambiguous n = true) ->
  sym (preimport_all P ks sc) !! n = sym sc !! n.
Proof.
  induction ks as [|k ks IH] using rev_ind; intros Hn; [done|].
  rewrite preimport_all_snoc, preimport_lookup.
  destruct (String.eqb_spec (identifier_FindString P k) n) as [Heq|Hne].
  - rewrite Heq, (Hn k); [|set_solver|done]. simpl.
    apply IH. intros k' Hk'. apply Hn. set_solver.
  - rewrite andb_false_r. apply IH. intros k' Hk'. apply Hn. set_solver.
Qed.

(** A name of a key that the loop does not skip is bound to the package
    of the last key of this name. *)
Lemma preimport_all_bound (ks : list string) (sc : scope) (k : string) :
  k ∈ ks ->
  ambiguous (identifier_FindString P k) = false ->
  exists before after k',
    ks = (before ++ k' :: after)%list
    /\ identifier_FindString P k' = identifier_FindString P k
    /\ (forall k'', k'' ∈ after -> identifier_FindString P k'' <> identifier_FindString P k)
    /\ sym (preimport_all P ks sc) !! identifier_FindString P k
       = Some {| kind := pkgSym; typ := Some (BinPkgT k') |}.
Proof.
  induction ks as [|k0 ks IH] using rev_ind; intros Hin Hamb; [set_solver|].
  rewrite preimport_all_snoc, preimport_lookup.
  destruct (String.eqb_spec (identifier_FindString P k0) (identifier_FindString P k))
    as [Heq|Hne].
  - exists ks, [], k0. rewrite Heq, Hamb. simpl. repeat split; try done. set_solver.
  - assert (k ∈ ks) as Hin'.
    { apply elem_of_app in Hin as [?|Hk]; [done|].
      apply list_elem_of_singleton in Hk. by subst. }
    destruct (IH Hin' Hamb) as (before & after & k' & -> & Hk' & Hafter & Hsym).
    exists before, (after ++ [k0])%list, k'. rewrite andb_false_r.
    repeat split; try done; [by rewrite <- app_assoc|].
    intros k'' Hk''. apply elem_of_app in Hk'' as [?|Hk'']; [by apply Hafter|].
    apply list_elem_of_singleton in Hk''. by subst.
Qed.

End PreimportFacts.

Lemma registered_paths (paths : list string) (k : string) :
  k ∈ paths <-> is_Some (binPkg (Toy.registered paths) !! k).
Proof.
  unfold Toy.registered. simpl.
  rewrite <- elem_of_dom, dom_list_to_map_L, elem_of_list_to_set.
  rewrite <- list_fmap_compose. simpl.
  by rewrite list_fmap_id.
Qed.

(** C10, on a registry with the two paths [a/util] and [b/util]. Both
    have the base name [util], which is not in the skip list of the loop.
    After the loop [util] is bound to the package the loop visited last,
    [b/util] in one order and [a/util] in the other: in either order the
    package visited first is not preimported, and the name is not
    skipped. *)
Theorem C10_repl_preimports_binary_packages :
  let i := Toy.registered ["a/util"; "b/util"] in
  (is_Some (binPkg i !! "a/util") /\ is_Some (binPkg i !! "b/util")
   /\ identifier_FindString Toy.plain "a/util" = "util"
   /\ identifier_FindString Toy.plain "b/util" = "util"
   /\ ambiguous "util" = false
   /\ sym (universe i) !! "util" = None)
  /\ sym (universe (REPL_preimport Toy.plain ["a/util"; "b/util"] i)) !! "util"
     = Some {| kind := pkgSym; typ := Some (BinPkgT "b/util") |}
  /\ sym (universe (REPL_preimport Toy.plain ["b/util"; "a/util"] i)) !! "util"
     = Some {| kind := pkgSym; typ := Some (BinPkgT "a/util") |}.
Proof.
  intros i. subst i.
  split; [|split; vm_compute; reflexivity].
  split; [apply registered_paths; apply elem_of_cons; by left|].
  split; [apply registered_paths; apply elem_of_cons; right; apply elem_of_cons; by left|].
  split; [reflexivity|]. split; [reflexivity|]. split; [reflexivity|].
  vm_compute. reflexivity.
Qed.

(** * More of interp.go *)

(** ** Stopping *)

(** X1. [stop] may only be called once per invocation of
    [EvalWithContext]: it returns only when the channel [done] is open,
    and a second call after it has returned panics on the closed channel. *)
Theorem X1_stop_only_once (i : Interpreter) :
  (is_Some (stop i) <-> done i = open_chan)
  /\ (forall i', stop i = Some i' -> done i' = closed_chan /\ stop i' = None).
Proof.
  unfold stop. simpl. split.
  - destruct (done i); simpl; split; intros H; try done; by destruct H.
  - intros i'. destruct (done i) eqn:Hd; simpl; try done.
    intros [= <-]. simpl. done.
Qed.

(** X2. A call of [stop] that returns changes the run id of the
    interpreter, also when the counter wraps around at 64 bits, and leaves
    the run id of the global frame as it was: a frame that had the run id
    of the interpreter no longer has it. *)
Theorem X2_stop_changes_run_id (i i' : Interpreter) :
  (0 <= id i < 2 ^ 64)%Z ->
  stop i = Some i' ->
  runid i' <> runid i
  /\ (0 <= runid i' < 2 ^ 64)%Z
  /\ frame_id i' = frame_id i
  /\ (frame_id i = runid i -> frame_id i' <> runid i').
Proof.
  intros Hid. unfold stop, runid. simpl.
  destruct (done i); simpl; try done. intros [= <-]. simpl.
  assert (uint64 (id i + 1) <> id i) as Hne.
  { unfold uint64. destruct (Z.eq_dec (id i) (2 ^ 64 - 1)%Z) as [->|Hmax].
    - done.
    - rewrite Z.mod_small by lia. lia. }
  split; [done|]. split; [apply Z.mod_pos_bound; lia|].
  split; [done|]. intros ->. congruence.
Qed.

Lemma X2_stop_changes_run_id_witness :
  let i := set_done open_chan (set_id (2 ^ 64 - 1)%Z (New Toy.os Toy.no_options)) in
  (0 <= id i < 2 ^ 64)%Z
  /\ stop i = Some (set_done closed_chan (set_id 0%Z i))
  /\ runid (set_done closed_chan (set_id 0%Z i)) <> runid i.
Proof.
  intros i. split; [done|]. split; [reflexivity|].
  exact (proj1 (X2_stop_changes_run_id i (set_done closed_chan (set_id 0%Z i))
                  ltac:(done) eq_refl)).
Defined.

Section CancellableFacts.

Context {World : Type} (P : Passes World).

(** X3. [EvalWithContext] does not panic, whatever the channel [done] of
    the interpreter was before the call, nil, open or closed: it makes
    the channel anew before it may close it. *)
Theorem X3_EvalWithContext_returns (r : race) (src : string) (mc : machine World) :
  exists ve, (EvalWithContext P r src mc).2 = Ok ve.
Proof.
  unfold EvalWithContext. destruct r as [e|]; simpl.
  - eauto.
  - destruct (Eval P src _) as [mc2 ve]. eauto.
Qed.

(** X4. An evaluation that ends before the context is done leaves the run
    id of the interpreter as it was and the channel [done] open, and
    returns what [Eval] returns on the interpreter so prepared; the
    binary packages are as they were. *)
Theorem X4_completed_evaluation (src : string) (mc : machine World) :
  let after := EvalWithContext P EvalDone src mc in
  id (interp after.1) = id (interp mc)
  /\ done (interp after.1) = open_chan
  /\ binPkg (interp after.1) = binPkg (interp mc)
  /\ iopt (interp after.1) = iopt (interp mc)
  /\ after.2
     = Ok (Eval P src {| interp := EvalWithContext_setup (interp mc);
                         world := world mc; log := log mc |}).2.
Proof.
  unfold EvalWithContext, Eval. simpl.
  set (mc1 := {| interp := EvalWithContext_setup (interp mc);
                 world := world mc; log := log mc |}).
  pose proof (eval_keeps P src "" true mc1) as (Hid & Ho & _ & Hd & Hb).
  destruct (eval P src "" true mc1) as [mc2 ve]. simpl in *.
  rewrite Hid, Hd, Hb, Ho. done.
Qed.

End CancellableFacts.

Section EndsFacts.

Context {World : Type} (P : Passes World).

Implicit Types (J : machine World * reflect_Value -> Prop) (i : Interpreter)
  (w : World) (l : list stage) (res : reflect_Value).

Lemma ends_ret J {A} (a : A) (s : machine World * reflect_Value) :
  J s -> ends J (ret a) s.
Proof. intros HJ s' r [= <- <-]. done. Qed.

Lemma ends_ret_bind J {A B} (a : A) (k : A -> M _ B) (s : machine World * reflect_Value) :
  ends J (k a) s -> ends J (bind (ret a) k) s.
Proof. done. Qed.

Lemma ends_bind_assoc J {A B C} (m : M _ A) (f : A -> M _ B) (k : B -> M _ C)
    (s : machine World * reflect_Value) :
  ends J (bind m (fun a => bind (f a) k)) s -> ends J (bind (bind m f) k) s.
Proof.
  intros H s' r. unfold bind at 1 2. intros Hm. apply (H s' r).
  unfold bind at 1. destruct (m s) as [s1 [a|x rt]]; done.
Qed.

Lemma ends_call_bind J {A B} (st : stage) (p : pass World A) (k : A -> M _ B) i w l res :
  (forall w', J ({| interp := i; world := w'; log := (l ++ [st])%list |}, res)) ->
  (forall a w',
      ends J (k a) ({| interp := i; world := w'; log := (l ++ [st])%list |}, res)) ->
  ends J (bind (call st p) k) ({| interp := i; world := w; log := l |}, res).
Proof.
  intros Hp Hk s' r. unfold bind, call. simpl.
  destruct (p i w) as [w' [a|x rt]].
  - apply (Hk a w').
  - intros [= <- <-]. apply (Hp w').
Qed.

Lemma ends_when_call_bind J {B} (b : bool) (st : stage) (p : pass World unit)
    (k : unit -> M _ B) i w l res :
  (b = true ->
   forall w', J ({| interp := i; world := w'; log := (l ++ [st])%list |}, res)) ->
  (b = true ->
   forall w',
     ends J (k tt) ({| interp := i; world := w'; log := (l ++ [st])%list |}, res)) ->
  (b = false -> ends J (k tt) ({| interp := i; world := w; log := l |}, res)) ->
  ends J (bind (when b (call st p)) k) ({| interp := i; world := w; log := l |}, res).
Proof.
  intros Hp Hk Hs. destruct b; simpl.
  - apply ends_call_bind; [by apply Hp|]. intros []. by apply Hk.
  - by apply Hs.
Qed.

Lemma ends_get_interp_bind J {B} (k : Interpreter -> M _ B) i w l res :
  ends J (k i) ({| interp := i; world := w; log := l |}, res) ->
  ends J (bind get_interp k) ({| interp := i; world := w; log := l |}, res).
Proof. done. Qed.

Lemma ends_get_world_bind J {B} (k : World -> M _ B) i w l res :
  ends J (k w) ({| interp := i; world := w; log := l |}, res) ->
  ends J (bind get_world k) ({| interp := i; world := w; log := l |}, res).
Proof. done. Qed.

Lemma ends_modify_bind J {B} (f : Interpreter -> Interpreter) (k : unit -> M _ B)
    i w l res :
  ends J (k tt) ({| interp := f i; world := w; log := l |}, res) ->
  ends J (bind (modify_interp f) k) ({| interp := i; world := w; log := l |}, res).
Proof. done. Qed.

Lemma ends_set_res_bind J {B} (v : reflect_Value) (k : unit -> M _ B) i w l res :
  ends J (k tt) ({| interp := i; world := w; log := l |}, v) ->
  ends J (bind (set_res v) k) ({| interp := i; world := w; log := l |}, res).
Proof. done. Qed.

(** [run_all] runs the nodes in their order and stops at the first run
    that panics. *)
Lemma run_all_outcome (ns : list node) i w l res :
  exists (pre : list node) (w' : World) (r : result unit),
    run_all P ns ({| interp := i; world := w; log := l |}, res)
    = ({| interp := i; world := w'; log := (l ++ (StRun <$> pre))%list |}, res, r)
    /\ pre `prefix_of` ns
    /\ (forall u, r = Ok u -> pre = ns).
Proof.
  revert w l. induction ns as [|n ns IH]; intros w l.
  - exists [], w, (Ok tt). simpl. rewrite app_nil_r. done.
  - cbn [run_all]. unfold bind, call. simpl.
    destruct (run P n true i w) as [w1 [[]|x rt]].
    + destruct (IH w1 (l ++ [StRun n])%list) as (pre & w' & r & Hrun & Hpre & Hall).
      exists (n :: pre), w', r. rewrite Hrun. simpl.
      rewrite <- app_assoc. simpl. split; [done|]. split.
      * by apply prefix_cons.
      * intros u Hu. by rewrite (Hall u Hu).
    + exists [n], w1, (Panicking x rt). simpl. split; [done|]. split.
      * apply prefix_cons, prefix_nil.
      * done.
Qed.

Lemma ends_run_all_bind J {B} (ns : list node) (k : unit -> M _ B) i w l res :
  (forall pre w', pre `prefix_of` ns ->
     J ({| interp := i; world := w'; log := (l ++ (StRun <$> pre))%list |}, res)) ->
  (forall w',
     ends J (k tt)
       ({| interp := i; world := w'; log := (l ++ (StRun <$> ns))%list |}, res)) ->
  ends J (bind (run_all P ns) k) ({| interp := i; world := w; log := l |}, res).
Proof.
  intros Hp Hk s' r. unfold bind.
  destruct (run_all_outcome ns i w l res) as (pre & w' & r0 & -> & Hpre & Hall).
  destruct r0 as [[]|x rt].
  - rewrite (Hall tt eq_refl). apply (Hk w').
  - intros [= <- <-]. by apply Hp.
Qed.

End EndsFacts.

Section EvalEnds.

Context {World : Type} (P : Passes World).

Lemma publish_ids (p : string) (i : Interpreter) :
  id (publish p i) = id i /\ frame_id (publish p i) = frame_id i.
Proof. unfold publish. by destruct (sym (universe i) !! p). Qed.

Lemma sorted_runs (pre : list node) (rest : list stage) :
  StronglySorted (fun a b => phase a <= phase b)%nat rest ->
  Forall (fun b => 8 <= phase b)%nat rest ->
  StronglySorted (fun a b => phase a <= phase b)%nat ((StRun <$> pre) ++ rest).
Proof.
  intros Hs Hr. induction pre as [|n pre IH]; [done|].
  cbn. constructor; [done|]. apply Forall_app. split.
  - apply Forall_fmap, Forall_forall. intros x _. unfold compose. simpl. clear. lia.
  - eapply Forall_impl; [exact Hr|]. intros b Hb. exact Hb.
Qed.

Lemma below_runs (a : stage) (pre : list node) (rest : list stage) :
  (phase a <= 8)%nat ->
  Forall (fun b => phase a <= phase b)%nat rest ->
  Forall (fun b => phase a <= phase b)%nat ((StRun <$> pre) ++ rest).
Proof.
  intros Ha Hr. apply Forall_app. split; [|done].
  apply Forall_fmap, Forall_forall. intros x _. exact Ha.
Qed.

Lemma sorted_runs_only (pre : list node) :
  StronglySorted (fun a b => phase a <= phase b)%nat (StRun <$> pre).
Proof.
  rewrite <- (app_nil_r (StRun <$> pre)). apply sorted_runs; constructor.
Qed.

Lemma below_runs_only (a : stage) (pre : list node) :
  (phase a <= 8)%nat ->
  Forall (fun b => phase a <= phase b)%nat (StRun <$> pre).
Proof.
  intros Ha. rewrite <- (app_nil_r (StRun <$> pre)). apply below_runs; [done|constructor].
Qed.

Ltac ends_step :=
  cbv beta;
  lazymatch goal with
  | |- ends _ (bind (call _ _) _) _ => apply ends_call_bind; [intros ?w | intros ?a ?w]
  | |- ends _ (bind (when _ (call _ _)) _) _ =>
      apply ends_when_call_bind; [intros ?Hb ?w | intros ?Hb ?w | intros ?Hb]
  | |- ends _ (bind get_world _) _ => apply ends_get_world_bind
  | |- ends _ (bind (modify_interp _) _) _ => apply ends_modify_bind
  | |- ends _ (bind (set_res _) _) _ => apply ends_set_res_bind
  | |- ends _ (bind (run_all _ _) _) _ =>
      apply ends_run_all_bind; [intros ?pre ?w ?Hpre | intros ?w]
  | |- ends _ (bind (ret _) _) _ => apply ends_ret_bind
  | |- ends _ (bind (bind _ _) _) _ => apply ends_bind_assoc
  | |- ends _ (ret _) _ => apply ends_ret
  | |- ends _ (bind (match ?x with _ => _ end) _) _ => destruct x eqn:?
  | |- ends _ (match ?x with _ => _ end) _ => destruct x eqn:?
  end.

Ltac split_In H :=
  repeat match type of H with
    | In _ (_ ++ _) => apply in_app_iff in H
    | In _ (_ :: _) => simpl in H
    | In _ [] => destruct H
    end.

Ltac cases_In :=
  repeat match goal with
    | H : _ \/ _ |- _ => destruct H as [H|H]
    | H : False |- _ => destruct H
    | H : In _ (_ ++ _) |- _ => apply in_app_iff in H
    | H : In _ (_ :: _) |- _ => simpl in H
    | H : In _ [] |- _ => destruct H
    | H : In _ (_ <$> _) |- _ => apply in_map_iff in H; destruct H as (? & H & _)
    end.

Ltac show_In := clear; rewrite ?in_app_iff; simpl; tauto.

Ltac sorted_leaf :=
  repeat first
    [ apply SSorted_nil | apply SSorted_cons | apply sorted_runs | apply sorted_runs_only
    | apply List.Forall_nil | apply List.Forall_cons | apply below_runs
    | apply below_runs_only ];
  simpl; clear; lia.

Ltac presence_leaf :=
  let st := fresh "st" in let m := fresh "m" in
  let Hst := fresh "Hst" in let Hm := fresh "Hm" in let Hlt := fresh "Hlt" in
  intros st m Hst Hm Hlt; unfold milestones in Hm; simpl in Hm;
  repeat (destruct Hm as [<-|Hm]); try (destruct Hm);
  first [ solve [show_In]
        | solve [exfalso; cases_In; subst; simpl in Hlt; clear -Hlt; lia] ].

Ltac eval_leaf :=
  unfold eval_end; cbn [fst snd interp world log];
  try match goal with
    | |- context [publish ?p ?i] =>
        destruct (publish_ids p i) as [? ?];
        set (ip := publish p i) in *; clearbody ip
    end;
  eexists; split; [rewrite <- ?app_assoc; cbn [app]; reflexivity|];
  split; [eexists; reflexivity|];
  split; [sorted_leaf|];
  split; [presence_leaf|];
  split; [first [ solve [intros _; simpl; unfold runid; congruence]
                | solve [intros Hin; exfalso; cases_In; discriminate] ]|];
  first [ solve [intros _; simpl; congruence]
        | solve [intros Hin; exfalso; apply Hin; show_In] ].

Lemma eval_body_ends (src : string) (inc : bool) (i : Interpreter) (w : World)
    (l : list stage) (res : reflect_Value) :
  ends (eval_end i l) (eval_body P src inc) ({| interp := i; world := w; log := l |}, res).
Proof.
  unfold eval_body. apply ends_get_interp_bind.
  repeat ends_step.
  all: solve [eval_leaf].
Qed.

Lemma eval_ends (src name_ : string) (inc : bool) (mc : machine World) :
  eval_end (eval_name name_ (interp mc)) (log mc)
    ((eval P src name_ inc mc).1, (eval P src name_ inc mc).2.1).
Proof.
  unfold eval.
  destruct (eval_body P src inc _) as [[mc2 res] r] eqn:E. simpl.
  exact (eval_body_ends src inc _ _ _ _ _ _ E).
Qed.

Lemma eval_name_fields (name_ : string) (i : Interpreter) :
  universe (eval_name name_ i) = universe i
  /\ srcPkg (eval_name name_ i) = srcPkg i
  /\ pkgNames (eval_name name_ i) = pkgNames i
  /\ frame_id (eval_name name_ i) = frame_id i
  /\ id (eval_name name_ i) = id i.
Proof.
  unfold eval_name.
  destruct (String.eqb name_ ""); simpl;
    match goal with |- context [String.eqb ?x ""] => destruct (String.eqb x "") end; done.
Qed.

(** X5. [eval] enters the parser first, and then the passes in the order
    of the pipeline: a pass is entered only after the passes before it,
    and only when the parser, the global type analysis, the CFG pass, the
    generation of the closures, the resizing of the frame and the wiring
    of the global variables that come before it have been entered. *)
Theorem X5_eval_follows_the_pipeline (src name_ : string) (inc : bool)
    (mc : machine World) :
  exists l : list stage,
    log (eval P src name_ inc mc).1 = (log mc ++ l)%list
    /\ (exists l', l = StAst :: l')
    /\ StronglySorted (fun a b => phase a <= phase b)%nat l
    /\ (forall st m, In st l -> In m milestones -> (phase m < phase st)%nat -> In m l).
Proof.
  destruct (eval_ends src name_ inc mc) as (l & Hl & Hhd & Hs & Hm & _).
  exists l. done.
Qed.

(** X6. When [eval] has reached the resizing of the global frame, the run
    id of the frame is the run id of the interpreter; when it has not
    reached the generation of the closures, the run id of the frame is
    what it was. *)
Theorem X6_eval_sets_frame_run_id (src name_ : string) (inc : bool) (mc : machine World) :
  exists l : list stage,
    log (eval P src name_ inc mc).1 = (log mc ++ l)%list
    /\ (In StResizeFrame l ->
        frame_id (interp (eval P src name_ inc mc).1)
        = runid (interp (eval P src name_ inc mc).1))
    /\ (~ In StGenRun l ->
        frame_id (interp (eval P src name_ inc mc).1) = frame_id (interp mc)).
Proof.
  destruct (eval_ends src name_ inc mc) as (l & Hl & _ & _ & _ & Hr & Hn).
  destruct (eval_name_fields name_ (interp mc)) as (_ & _ & _ & Hf & Hi).
  destruct (eval_keeps P src name_ inc mc) as (Hid & _).
  exists l. simpl in *. split; [done|]. split.
  - intros H. unfold runid. rewrite Hid, <- Hi. by apply Hr.
  - intros H. rewrite <- Hf. by apply Hn.
Qed.

(** X8. When the parser returns an error, or no root without an error,
    [eval] returns what the parser returned with the zero value: it has
    entered the parser only, and the interpreter is as it was but for its
    name. *)
Theorem X8_eval_stops_on_a_parse_error (src name_ : string) (inc : bool)
    (mc : machine World) (w : World) (pkgName : string) (root : option node)
    (err : option error) :
  let i := eval_name name_ (interp mc) in
  ast P src (name i) inc i (world mc) = (w, Ok (pkgName, root, err)) ->
  is_Some err \/ root = None ->
  eval P src name_ inc mc
  = ({| interp := i; world := w; log := (log mc ++ [StAst])%list |}, (ZeroValue, err)).
Proof.
  intros i Hast Hstop. unfold eval. fold i.
  set (mc1 := {| interp := i; world := world mc; log := log mc |}).
  assert (eval_body P src inc (mc1, ZeroValue)
          = ({| interp := i; world := w; log := (log mc ++ [StAst])%list |},
             ZeroValue, Ok err)) as ->; [|done].
  unfold eval_body.
  rewrite (bind_Ok get_interp _ (mc1, ZeroValue) (mc1, ZeroValue) i eq_refl).
  rewrite (bind_Ok (call StAst (ast P src (name i) inc)) _ (mc1, ZeroValue) _ _
             (call_eq StAst _ mc1 ZeroValue _ _ Hast)).
  destruct err as [e|]; [done|].
  destruct Hstop as [[e He]|Hroot]; [done|]. by subst root.
Qed.

(** X9. After [eval] the name of the interpreter is not empty: it is the
    name given, or else the name the interpreter had, or else [_.go]. *)
Theorem X9_eval_names_the_source (src name_ : string) (inc : bool) (mc : machine World) :
  let after := name (interp (eval P src name_ inc mc).1) in
  after <> ""
  /\ after = (if String.eqb name_ "" then
                if String.eqb (name (interp mc)) "" then DefaultSourceName
                else name (interp mc)
              else name_).
Proof.
  intros after.
  assert (after = name (eval_name name_ (interp mc))) as ->.
  { unfold after, eval.
    set (mc1 := {| interp := eval_name name_ (interp mc);
                   world := world mc; log := log mc |}).
    destruct (eval_body P src inc (mc1, ZeroValue)) as [[mc2 res] r] eqn:E. simpl.
    assert (keeps (fun _ => True) (eval_body P src inc) (mc1, ZeroValue)) as K
      by (apply eval_body_keeps; done).
    destruct (K _ _ E) as [Hk _]. simpl in Hk. unfold kept in Hk. congruence. }
  unfold eval_name.
  destruct (String.eqb_spec name_ "") as [->|Hn]; simpl.
  - destruct (String.eqb_spec (name (interp mc)) "") as [He|He]; simpl; [done|].
    destruct (String.eqb_spec (name (interp mc)) ""); done.
  - destruct (String.eqb_spec name_ ""); done.
Qed.

(** X26. [EvalPath] on a file that cannot be read returns the error of
    the read with the zero value and leaves the interpreter as it was,
    with its name; on a file that is read it enters the parser, and the
    interpreter takes the path as its name unless the path is empty. *)
Theorem X26_EvalPath_reads_then_evaluates (read : string -> string + error)
    (path : string) (mc : machine World) :
  match read path with
  | inr err => EvalPath P read path mc = (mc, (ZeroValue, Some err))
  | inl b =>
      (exists l', log (EvalPath P read path mc).1 = (log mc ++ StAst :: l')%list)
      /\ (path <> "" -> name (interp (EvalPath P read path mc).1) = path)
  end.
Proof.
  unfold EvalPath. destruct (read path) as [b|err]; [|done]. split.
  - destruct (eval_ends b path false mc) as (l & Hl & [l' ->] & _).
    exists l'. exact Hl.
  - intros Hp.
    assert (name (interp (eval P b path false mc).1)
            = name (eval_name path (interp mc))) as ->.
    { unfold eval.
      set (mc1 := {| interp := eval_name path (interp mc);
                     world := world mc; log := log mc |}).
      destruct (eval_body P b false (mc1, ZeroValue)) as [[mc2 res] r] eqn:E. simpl.
      assert (keeps (fun _ => True) (eval_body P b false) (mc1, ZeroValue)) as K
        by (apply eval_body_keeps; done).
      destruct (K _ _ E) as [Hk _]. simpl in Hk. unfold kept in Hk. congruence. }
    unfold eval_name. destruct (String.eqb_spec path "") as [?|_]; [done|]. simpl.
    by destruct (String.eqb_spec path "").
Qed.

End EvalEnds.

Lemma X8_eval_stops_on_a_parse_error_witness :
  let i := eval_name "" (interp Toy.fresh) in
  let err :=
    Some (scanner_ErrorList
            [ {| Pos := "_.go:1:1"; Msg := "expected declaration, found '}'" |} ]) in
  ast Toy.reading "}" (name i) true i tt = (tt, Ok ("", None, err))
  /\ (is_Some err \/ @None node = None)
  /\ eval Toy.reading "}" "" true Toy.fresh
     = ({| interp := i; world := tt; log := [StAst] |}, (ZeroValue, err)).
Proof.
  intros i err.
  assert (is_Some err \/ @None node = None) as H by (right; reflexivity).
  split; [reflexivity|]. split; [exact H|].
  exact (X8_eval_stops_on_a_parse_error Toy.reading "}" "" true Toy.fresh tt "" None err
           eq_refl H).
Defined.

(** ** More of the loop *)

Section LoopFacts.

Context {World : Type} (P : Passes World).

(** What a turn adds to what has been written. *)
Lemma REPL_turn_written (prompt : reflect_Value -> writes) (errs : Writer)
    (inp : received) (st : repl (World := World)) :
  match REPL_turn P prompt errs inp st with
  | Continued st' => r_written st' = r_written st
  | Prompted st' =>
      exists report : writes,
        r_written st' = (r_written st ++ report ++ prompt (r_v st'))%list
        /\ Forall (fun w => w.1 = errs) report
  | Panicked _ => True
  end.
Proof.
  unfold REPL_turn.
  destruct (EvalWithContext P _ _ (r_mc st)) as [mc [[v err]|x rt]]; [|done].
  destruct err as [e|]; cbn [REPL_report].
  - destruct e as [l|p| | |msg]; cbn [REPL_report].
    + destruct l as [|e0 more]; [done|].
      destruct (ignoreScannerError e0 (line inp)); [done|].
      eexists. split; [reflexivity|]. by repeat constructor.
    + eexists. split; [reflexivity|]. by repeat constructor.
    + eexists. split; [reflexivity|]. by repeat constructor.
    + eexists. split; [reflexivity|]. by repeat constructor.
    + eexists. split; [reflexivity|]. by repeat constructor.
  - exists []. split; [reflexivity|]. constructor.
Qed.

(** X10. An interrupt does not end the loop: the turn whose evaluation
    ends on the cancellation of the context reports [context canceled] on
    the error stream, empties the source, makes a new context and prompts;
    the run id of the interpreter is one more than it was. *)
Theorem X10_interrupt_does_not_end_the_loop (prompt : reflect_Value -> writes)
    (errs : Writer) (inp : received) (st : repl (World := World)) :
  interrupted inp = true ->
  exists st' : repl,
    REPL_turn P prompt errs inp st = Prompted st'
    /\ r_v st' = ZeroValue
    /\ r_err st' = Some context_Canceled
    /\ r_src st' = ""
    /\ r_ctx st' = Datatypes.S (r_ctx st)
    /\ r_written st'
       = (r_written st ++ [(errs, "context canceled" +:+ nl)] ++ prompt ZeroValue)%list
    /\ id (interp (r_mc st')) = uint64 (id (interp (r_mc st)) + 1).
Proof.
  intros Hint. unfold REPL_turn. rewrite Hint.
  unfold EvalWithContext, EvalWithContext_setup, stop. simpl.
  eexists. split; [reflexivity|]. simpl. done.
Qed.

(** X11. A turn of the loop panics in one case only: when the evaluation
    returns an empty list of scanner errors, of which the loop takes the
    first. *)
Theorem X11_turn_panics_on_empty_error_list_only (prompt : reflect_Value -> writes)
    (errs : Writer) (inp : received) (st : repl (World := World)) :
  (exists x, REPL_turn P prompt errs inp st = Panicked x)
  <-> (exists mc v,
          EvalWithContext P (if interrupted inp then CtxDone Canceled else EvalDone)
            (r_src st +:+ line inp +:+ nl) (r_mc st)
          = (mc, Ok (v, Some (scanner_ErrorList [])))).
Proof.
  unfold REPL_turn.
  assert (exists ve,
             (EvalWithContext P (if interrupted inp then CtxDone Canceled else EvalDone)
                (r_src st +:+ line inp +:+ nl) (r_mc st)).2 = Ok ve) as [[v err] Hve].
  { unfold EvalWithContext. destruct (interrupted inp); simpl; [eauto|].
    destruct (Eval P _ _) as [mc2 ve]. eauto. }
  destruct (EvalWithContext P _ _ (r_mc st)) as [mc r]. simpl in Hve. subst r.
  split.
  - intros [x Hx]. destruct err as [e|]; [|done].
    destruct e as [l|p| | |msg]; try done.
    destruct l as [|e0 more]; [eauto|].
    simpl in Hx. by destruct (ignoreScannerError e0 (line inp)).
  - intros (mc' & v' & [= -> -> ->]). simpl. eauto.
Qed.

Lemma REPL_loop_app (prompt : reflect_Value -> writes) (errs : Writer)
    (pre rest : list received) (s s1 : repl (World := World))
    (ve : reflect_Value * option error) :
  REPL_loop P prompt errs pre s = (s1, Ok ve) ->
  REPL_loop P prompt errs (pre ++ rest) s = REPL_loop P prompt errs rest s1.
Proof.
  revert s. induction pre as [|inp pre IH]; intros s; simpl.
  - by intros [= <- _].
  - destruct (REPL_turn P prompt errs inp s) as [s'|s'|x]; [apply IH|apply IH|done].
Qed.

(** X12. At the end of the input the loop returns the value and the error
    of the last evaluation, also when that evaluation failed on an
    incomplete input and the loop was to read on. *)
Theorem X12_loop_returns_last_evaluation (prompt : reflect_Value -> writes)
    (errs : Writer) (pre : list received) (inp : received)
    (s s1 : repl (World := World)) (ve : reflect_Value * option error)
    (mc : machine World) (v : reflect_Value) (err : option error) :
  REPL_loop P prompt errs pre s = (s1, Ok ve) ->
  EvalWithContext P (if interrupted inp then CtxDone Canceled else EvalDone)
    (r_src s1 +:+ line inp +:+ nl) (r_mc s1) = (mc, Ok (v, err)) ->
  err <> Some (scanner_ErrorList []) ->
  (REPL_loop P prompt errs (pre ++ [inp]) s).2 = Ok (v, err).
Proof.
  intros Hpre Heval Hne. rewrite (REPL_loop_app _ _ _ _ _ _ _ Hpre).
  simpl. unfold REPL_turn. rewrite Heval.
  destruct err as [e|]; [|done].
  destruct e as [l|p| | |msg]; try done.
  destruct l as [|e0 more]; [done|].
  simpl. by destruct (ignoreScannerError e0 (line inp)).
Qed.

(** X13. When the input of the interpreter is not a terminal, the loop
    writes nothing but reports on the error stream: no value and no
    prompt, from the entry of [REPL] to its end. *)
Theorem X13_no_prompt_without_a_terminal (ks : list string) (inputs : list received)
    (mc : machine World) :
  is_terminal (stdin (iopt (interp mc))) = false ->
  Forall (fun w => w.1 = stderr (iopt (interp mc))) (r_written (REPL P ks inputs mc).1).
Proof.
  intros Hterm. unfold REPL.
  set (prompt := getPrompt (stdin (iopt (interp mc))) (stdout (iopt (interp mc)))).
  assert (forall v, prompt v = []) as Hprompt.
  { intros v. unfold prompt. rewrite getPrompt_terminal. by rewrite Hterm. }
  rewrite Hprompt.
  assert (forall s : repl (World := World),
             Forall (fun w => w.1 = stderr (iopt (interp mc))) (r_written s) ->
             Forall (fun w => w.1 = stderr (iopt (interp mc)))
               (r_written (REPL_loop P prompt (stderr (iopt (interp mc))) inputs s).1))
    as Hloop.
  { induction inputs as [|inp inputs IH]; intros s Hs; simpl; [done|].
    pose proof (REPL_turn_written prompt (stderr (iopt (interp mc))) inp s) as Hturn.
    destruct (REPL_turn P prompt (stderr (iopt (interp mc))) inp s) as [s'|s'|x].
    - apply IH. by rewrite Hturn.
    - apply IH. destruct Hturn as (report & -> & Hrep).
      rewrite Hprompt, app_nil_r. by apply Forall_app.
    - done. }
  apply Hloop. simpl. constructor.
Qed.

End LoopFacts.

Lemma X10_interrupt_does_not_end_the_loop_witness :
  interrupted Toy.interrupt = true
  /\ exists st' : repl,
      REPL_turn Toy.reading (getPrompt (os_Stdin Toy.os) "os.Stdout") "os.Stderr"
        Toy.interrupt Toy.at_prompt = Prompted st'
      /\ r_err st' = Some context_Canceled
      /\ r_ctx st' = 1.
Proof.
  split; [reflexivity|].
  destruct (X10_interrupt_does_not_end_the_loop Toy.reading
              (getPrompt (os_Stdin Toy.os) "os.Stdout") "os.Stderr"
              Toy.interrupt Toy.at_prompt eq_refl)
    as (st' & Hturn & _ & Herr & _ & Hctx & _).
  exists st'. split; [exact Hturn|]. split; [exact Herr | exact Hctx].
Defined.

Lemma X12_loop_returns_last_evaluation_witness :
  let prompt := getPrompt (os_Stdin Toy.os) "os.Stdout" in
  let last := EvalWithContext Toy.reading EvalDone
                (r_src Toy.at_prompt +:+ line Toy.open_brace +:+ nl)
                (r_mc Toy.at_prompt) in
  REPL_loop Toy.reading prompt "os.Stderr" [] Toy.at_prompt
  = (Toy.at_prompt, Ok (ZeroValue, None))
  /\ last = (last.1, Ok (ZeroValue, Some (scanner_ErrorList [Toy.eof_error])))
  /\ Some (scanner_ErrorList [Toy.eof_error]) <> Some (scanner_ErrorList [])
  /\ (REPL_loop Toy.reading prompt "os.Stderr" ([] ++ [Toy.open_brace]) Toy.at_prompt).2
     = Ok (ZeroValue, Some (scanner_ErrorList [Toy.eof_error])).
Proof.
  intros prompt last.
  assert (last = (last.1, Ok (ZeroValue, Some (scanner_ErrorList [Toy.eof_error]))))
    as Hlast by (vm_compute; reflexivity).
  split; [reflexivity|]. split; [exact Hlast|]. split; [discriminate|].
  exact (X12_loop_returns_last_evaluation Toy.reading prompt "os.Stderr" []
           Toy.open_brace Toy.at_prompt Toy.at_prompt (ZeroValue, None) last.1
           ZeroValue (Some (scanner_ErrorList [Toy.eof_error]))
           eq_refl Hlast ltac:(discriminate)).
Defined.

Lemma X13_no_prompt_without_a_terminal_witness :
  is_terminal (stdin (iopt (interp Toy.piped))) = false
  /\ Forall (fun w => w.1 = stderr (iopt (interp Toy.piped)))
       (r_written (REPL Toy.reading [""]
                     [ {| line := "1+2"; interrupted := false |}; Toy.interrupt ]
                     Toy.piped).1).
Proof.
  split; [reflexivity|].
  exact (X13_no_prompt_without_a_terminal Toy.reading [""]
           [ {| line := "1+2"; interrupted := false |}; Toy.interrupt ]
           Toy.piped eq_refl).
Defined.

(** ** More of the binary packages *)

Lemma overlay_union (defs : list (string * reflect_Value)) (p : gmap string reflect_Value) :
  foldl (fun p d => <[d.1 := d.2]> p) p defs = list_to_map (reverse defs) ∪ p.
Proof.
  revert p. induction defs as [|d defs IH]; intros p; simpl.
  - by rewrite (left_id_L ∅ (∪)).
  - rewrite IH, reverse_cons, list_to_map_app. simpl.
    rewrite <- (assoc_L (∪)). f_equal.
    by rewrite <- insert_union_l, (left_id_L ∅ (∪)).
Qed.

Section FixStdioFacts.

Context {World : Type} (P : Passes World).

Lemma redefine_lookup (path : string) (defs : list (string * reflect_Value))
    (b : Exports) (k : string) :
  redefine path defs b !! k =
  if decide (k = path) then (fun p => list_to_map (reverse defs) ∪ p) <$> b !! path
  else b !! k.
Proof.
  unfold redefine. destruct (b !! path) as [p|] eqn:Hp.
  - rewrite overlay_union. destruct (decide (k = path)) as [->|Hne].
    + by rewrite lookup_insert_eq.
    + by rewrite lookup_insert_ne.
  - destruct (decide (k = path)) as [->|Hne]; [by rewrite Hp|done].
Qed.

Lemma redefine_idempotent (path : string) (defs : list (string * reflect_Value))
    (b : Exports) :
  redefine path defs (redefine path defs b) = redefine path defs b.
Proof.
  apply map_eq. intros k. rewrite !redefine_lookup.
  destruct (decide (k = path)) as [->|Hne]; [|done].
  rewrite decide_True by done. destruct (b !! path) as [p|]; [|done]. simpl.
  by rewrite (assoc_L (∪)), (idemp_L (∪)).
Qed.

Lemma redefine_commute (path1 path2 : string) (defs1 defs2 : list (string * reflect_Value))
    (b : Exports) :
  path1 <> path2 ->
  redefine path1 defs1 (redefine path2 defs2 b)
  = redefine path2 defs2 (redefine path1 defs1 b).
Proof.
  intros Hne. apply map_eq. intros k. rewrite !redefine_lookup.
  destruct (decide (k = path1)) as [H1|H1]; destruct (decide (k = path2)) as [H2|H2];
    try done.
  - congruence.
  - subst k. by rewrite decide_False by done.
  - subst k. by rewrite decide_False by done.
Qed.

Lemma redefine_symbol_stays (path : string) (defs : list (string * reflect_Value))
    (b : Exports) (k s : string) :
  is_Some (binPkg_symbol b k s) -> is_Some (binPkg_symbol (redefine path defs b) k s).
Proof.
  unfold binPkg_symbol. rewrite redefine_lookup.
  destruct (decide (k = path)) as [->|Hne]; [|done].
  destruct (b !! path) as [p|]; [|done]. simpl.
  intros Hs. apply lookup_union_is_Some. by right.
Qed.

Lemma redefine_dom (path : string) (defs : list (string * reflect_Value)) (b : Exports) :
  dom (redefine path defs b) = dom b.
Proof.
  apply set_eq. intros k. rewrite !elem_of_dom, redefine_lookup.
  destruct (decide (k = path)) as [->|Hne]; [|done].
  by rewrite fmap_is_Some.
Qed.

Lemma fixStdio_symbol_stays (i : Interpreter) (k s : string) :
  is_Some (binPkg_symbol (binPkg i) k s) ->
  is_Some (binPkg_symbol (binPkg (fixStdio i)) k s).
Proof.
  unfold fixStdio. destruct (binPkg i !! "fmt") as [p|]; [|done].
  intros Hs. simpl. by do 4 apply redefine_symbol_stays.
Qed.

(** X14. [fixStdio] does nothing when the package [fmt] is not
    registered. Otherwise it registers no package and changes the
    packages [fmt], [flag], [log] and [os] only, where it overwrites and
    adds symbols but removes none; the other fields of the interpreter
    are as they were. *)
Theorem X14_fixStdio_touches_four_packages (i : Interpreter) :
  (binPkg i !! "fmt" = None -> fixStdio i = i)
  /\ dom (binPkg (fixStdio i)) = dom (binPkg i)
  /\ (forall k, k <> "fmt" -> k <> "flag" -> k <> "log" -> k <> "os" ->
        binPkg (fixStdio i) !! k = binPkg i !! k)
  /\ (forall k s, is_Some (binPkg_symbol (binPkg i) k s) ->
        is_Some (binPkg_symbol (binPkg (fixStdio i)) k s))
  /\ fixStdio i = set_binPkg (binPkg (fixStdio i)) i.
Proof.
  unfold fixStdio. destruct (binPkg i !! "fmt") as [p|] eqn:Hfmt.
  - split; [done|]. split; [|split; [|split]].
    + simpl. by rewrite !redefine_dom.
    + intros k H1 H2 H3 H4. simpl. rewrite !redefine_lookup.
      by rewrite !decide_False by done.
    + intros k s Hs. apply (fixStdio_symbol_stays i k s) in Hs.
      unfold fixStdio in Hs. by rewrite Hfmt in Hs.
    + done.
  - split; [done|]. split; [done|]. split; [done|]. split; [done|]. by destruct i.
Qed.

(** X15. [fixStdio] is idempotent: a second call changes nothing. *)
Theorem X15_fixStdio_idempotent (i : Interpreter) :
  fixStdio (fixStdio i) = fixStdio i.
Proof.
  unfold fixStdio at 2 3. destruct (binPkg i !! "fmt") as [p|] eqn:Hfmt.
  - unfold fixStdio. cbn [binPkg iopt set_binPkg stdin stdout stderr].
    rewrite !redefine_lookup.
    rewrite (decide_False (P := "fmt" = "os")) by done.
    rewrite (decide_False (P := "fmt" = "log")) by done.
    rewrite (decide_False (P := "fmt" = "flag")) by done.
    rewrite decide_True by done. rewrite Hfmt. cbn [fmap option_fmap option_map].
    unfold set_binPkg. cbn [id name iopt cancelChan universe srcPkg pkgNames done frame_id].
    f_equal.
    set (sin := rname (stdin (iopt i))). set (sout := stdout (iopt i)).
    set (serr := stderr (iopt i)).
    match goal with
    | |- redefine "os" ?dos (redefine "log" ?dlog (redefine "flag" ?dflag
           (redefine "fmt" ?dfmt ?b4))) = _ =>
        set (Dos := dos); set (Dlog := dlog); set (Dflag := dflag); set (Dfmt := dfmt)
    end.
    rewrite (redefine_commute "fmt" "os") by done.
    rewrite (redefine_commute "fmt" "log") by done.
    rewrite (redefine_commute "fmt" "flag") by done.
    rewrite redefine_idempotent.
    rewrite (redefine_commute "flag" "os") by done.
    rewrite (redefine_commute "flag" "log") by done.
    rewrite redefine_idempotent.
    rewrite (redefine_commute "log" "os") by done.
    rewrite redefine_idempotent.
    by rewrite redefine_idempotent.
  - unfold fixStdio. by rewrite Hfmt.
Qed.

(** X16. [Use] removes no symbol from the registry: a symbol that is
    registered before the call is registered after it, with the same or
    with a new value. *)
Theorem X16_Use_keeps_registered_symbols (values : Exports) (mc : machine World)
    (k s : string) :
  is_Some (binPkg_symbol (binPkg (interp mc)) k s) ->
  is_Some (binPkg_symbol (binPkg (interp (Use P values mc))) k s).
Proof.
  intros Hs. unfold Use. simpl.
  destruct (Use_loop P values (interp mc) (world mc)) as (Hb & _ & _).
  assert (is_Some (binPkg_symbol
                     (binPkg (map_fold (Use_entry P) (interp mc, world mc) values).1) k s))
    as Hloop.
  { unfold binPkg_symbol in *. rewrite Hb.
    destruct (String.eqb k (hooksPath P)); [done|].
    destruct (values !! k) as [v|]; [|done].
    destruct (binPkg (interp mc) !! k) as [p|]; [|by destruct Hs]. simpl.
    apply lookup_union_is_Some. by right. }
  destruct (values !! "fmt"); [by apply fixStdio_symbol_stays|done].
Qed.

(** X17. After [Use] of an export map that has the path [fmt], the print
    and scan functions of [fmt] in the registry are those over the
    streams of the interpreter, whatever the map gives for them. *)
Theorem X17_Use_of_fmt_redirects_stdio (values : Exports) (mc : machine World)
    (v : gmap string reflect_Value) :
  values !! "fmt" = Some v ->
  hooksPath P <> "fmt" ->
  let after := binPkg (interp (Use P values mc)) in
  let sin := rname (stdin (iopt (interp mc))) in
  let sout := stdout (iopt (interp mc)) in
  Forall (fun d => binPkg_symbol after "fmt" d.1 = Some d.2)
    [ ("Print", over "fmt.Fprint" sout);
      ("Printf", over "fmt.Fprintf" sout);
      ("Println", over "fmt.Fprintln" sout);
      ("Scan", over "fmt.Fscan" sin);
      ("Scanf", over "fmt.Fscanf" sin);
      ("Scanln", over "fmt.Fscanln" sin) ].
Proof.
  intros Hfmt Hhooks after sin sout. unfold after, Use. rewrite Hfmt. simpl.
  destruct (Use_loop P values (interp mc) (world mc)) as (Hb & _ & Ho).
  set (i1 := (map_fold (Use_entry P) (interp mc, world mc) values).1) in *.
  pose proof (Hb "fmt") as Hb1. rewrite Hfmt in Hb1.
  destruct (String.eqb_spec "fmt" (hooksPath P)) as [?|_]; [done|].
  unfold fixStdio. rewrite Hb1, Ho. fold sin. fold sout. simpl.
  unfold binPkg_symbol. rewrite !redefine_lookup.
  rewrite (decide_False (P := "fmt" = "os")) by done.
  rewrite (decide_False (P := "fmt" = "log")) by done.
  rewrite (decide_False (P := "fmt" = "flag")) by done.
  rewrite decide_True by done. rewrite Hb1. simpl.
  repeat constructor; simpl; by apply lookup_union_Some_l.
Qed.

(** X18. The outcome of [Use] does not depend on the order in which the
    export map is ranged over: the turns of its loop, taken in any order,
    end in the same interpreter and the same hooks. *)
Theorem X18_Use_in_any_order (values : Exports)
    (l : list (string * gmap string reflect_Value)) (mc : machine World) :
  l ≡ₚ map_to_list values ->
  let st := foldr (uncurry (Use_entry P)) (interp mc, world mc) l in
  Use P values mc
  = {| interp := match values !! "fmt" with Some _ => fixStdio st.1 | None => st.1 end;
       world := st.2;
       log := log mc |}.
Proof.
  intros Hl st. unfold Use, st. by rewrite (Use_any_order P values l _ _ Hl).
Qed.

End FixStdioFacts.

Lemma X17_Use_of_fmt_redirects_stdio_witness :
  Toy.one_symbol "fmt" "Print" (HostValue "fmt.Print" None) !! "fmt"
  = Some {[ "Print" := HostValue "fmt.Print" None ]}
  /\ hooksPath Toy.plain <> "fmt"
  /\ binPkg_symbol
       (binPkg (interp (Use Toy.plain
                          (Toy.one_symbol "fmt" "Print" (HostValue "fmt.Print" None))
                          Toy.fresh))) "fmt" "Print"
     = Some (over "fmt.Fprint" "os.Stdout").
Proof.
  split; [reflexivity|]. split; [discriminate|].
  exact (Forall_inv (X17_Use_of_fmt_redirects_stdio Toy.plain
                       (Toy.one_symbol "fmt" "Print" (HostValue "fmt.Print" None))
                       Toy.fresh {[ "Print" := HostValue "fmt.Print" None ]}
                       eq_refl ltac:(discriminate))).
Defined.

Lemma X16_Use_keeps_registered_symbols_witness :
  is_Some (binPkg_symbol (binPkg (interp Toy.with_os)) "os" "Stdout")
  /\ is_Some (binPkg_symbol
                (binPkg (interp (Use Toy.plain
                                   (Toy.one_symbol "fmt" "Print" (HostValue "fmt.Print" None))
                                   Toy.with_os))) "os" "Stdout").
Proof.
  assert (is_Some (binPkg_symbol (binPkg (interp Toy.with_os)) "os" "Stdout")) as H
    by (vm_compute; eauto).
  split; [exact H|].
  exact (X16_Use_keeps_registered_symbols Toy.plain
           (Toy.one_symbol "fmt" "Print" (HostValue "fmt.Print" None))
           Toy.with_os "os" "Stdout" H).
Defined.

Lemma X18_Use_in_any_order_witness :
  let values : Exports :=
    {[ "os" := {[ "Stdout" := HostValue "os.Stdout" None ]};
       "fmt" := {[ "Print" := HostValue "fmt.Print" None ]} ]} in
  let l := reverse (map_to_list values) in
  l ≡ₚ map_to_list values
  /\ Use Toy.plain values Toy.fresh
     = {| interp := fixStdio (foldr (uncurry (Use_entry Toy.plain))
                                (interp Toy.fresh, world Toy.fresh) l).1;
          world := tt;
          log := [] |}.
Proof.
  intros values l.
  assert (l ≡ₚ map_to_list values) as Hl by apply reverse_Permutation.
  split; [exact Hl|].
  exact (X18_Use_in_any_order Toy.plain values l Toy.fresh Hl).
Defined.

(** ** What [Use] merges *)

Section MergeFacts.

Context {World : Type} (P : Passes World).

Lemma stdio_symbols_streams (i i' : Interpreter) :
  iopt i' = iopt i -> stdio_symbols i' = stdio_symbols i.
Proof. intros H. unfold stdio_symbols. by rewrite H. Qed.

Lemma overlay_in (defs : list (string * reflect_Value)) (p : gmap string reflect_Value)
    (s : string) (v : reflect_Value) :
  NoDup defs.*1 -> (s, v) ∈ defs ->
  foldl (fun p d => <[d.1 := d.2]> p) p defs !! s = Some v.
Proof.
  intros Hnd Hin. rewrite overlay_union. apply lookup_union_Some_l.
  apply elem_of_list_to_map_1.
  - by rewrite fmap_reverse, reverse_Permutation.
  - by apply elem_of_reverse.
Qed.

Lemma overlay_out (defs : list (string * reflect_Value)) (p : gmap string reflect_Value)
    (s : string) :
  s ∉ defs.*1 -> foldl (fun p d => <[d.1 := d.2]> p) p defs !! s = p !! s.
Proof.
  intros Hout. rewrite overlay_union. apply lookup_union_r, not_elem_of_list_to_map_1.
  by rewrite fmap_reverse, elem_of_reverse.
Qed.

Lemma redefine_symbol_in (path : string) (defs : list (string * reflect_Value))
    (b : Exports) (s : string) (v : reflect_Value) :
  is_Some (b !! path) -> NoDup defs.*1 -> (s, v) ∈ defs ->
  binPkg_symbol (redefine path defs b) path s = Some v.
Proof.
  intros [p Hp] Hnd Hin. unfold binPkg_symbol, redefine.
  rewrite Hp, lookup_insert_eq. by apply overlay_in.
Qed.

Lemma redefine_symbol_out (path : string) (defs : list (string * reflect_Value))
    (b : Exports) (k s : string) :
  (k = path -> s ∉ defs.*1) ->
  binPkg_symbol (redefine path defs b) k s = binPkg_symbol b k s.
Proof.
  intros H. unfold binPkg_symbol, redefine.
  destruct (b !! path) as [p|] eqn:Hp; [|done].
  destruct (decide (k = path)) as [->|Hne].
  - rewrite lookup_insert_eq, Hp. apply overlay_out. by apply H.
  - by rewrite lookup_insert_ne.
Qed.

Lemma redefine_registered (path : string) (defs : list (string * reflect_Value))
    (b : Exports) (k : string) :
  is_Some (redefine path defs b !! k) <-> is_Some (b !! k).
Proof. by rewrite <- !elem_of_dom, redefine_dom. Qed.

Ltac in_table :=
  unfold stdio_symbols; cbn [In]; repeat first [left; reflexivity | right].

Ltac names_differ :=
  cbn [fmap list_fmap fst]; apply (bool_decide_unpack _); vm_compute; reflexivity.

(** [fixStdio] assigns the symbols of [stdio_symbols], in the packages
    that are registered. *)
Lemma fixStdio_stdio_symbols (i : Interpreter) (k s : string) (v : reflect_Value) :
  is_Some (binPkg i !! "fmt") ->
  In (k, s, v) (stdio_symbols i) ->
  is_Some (binPkg i !! k) ->
  binPkg_symbol (binPkg (fixStdio i)) k s = Some v.
Proof.
  intros [pf Hfmt] Hin Hreg. unfold fixStdio. rewrite Hfmt.
  cbv zeta. cbn [binPkg set_binPkg].
  unfold stdio_symbols in Hin. cbn [In] in Hin.
  repeat (destruct Hin as [Hin|Hin];
          [injection Hin as <- <- <-;
           repeat (rewrite redefine_symbol_out by (intros ?; discriminate));
           apply redefine_symbol_in;
           [ rewrite ?redefine_registered; exact Hreg
           | names_differ
           | repeat first [apply list_elem_of_here | apply list_elem_of_further] ]|]).
  destruct Hin.
Qed.

(** [fixStdio] leaves every other symbol as it is. *)
Lemma fixStdio_other_symbols (i : Interpreter) (k s : string) :
  (forall v, ~ In (k, s, v) (stdio_symbols i)) ->
  binPkg_symbol (binPkg (fixStdio i)) k s = binPkg_symbol (binPkg i) k s.
Proof.
  intros Hout. unfold fixStdio. destruct (binPkg i !! "fmt") as [pf|] eqn:Hfmt; [|done].
  cbv zeta. cbn [binPkg set_binPkg].
  rewrite !redefine_symbol_out; [done|..].
  all: intros ->; intros Hs; apply list_elem_of_fmap in Hs as ([s' v] & Heq & Hd);
    simpl in Heq; subst s'; apply (Hout v);
    apply list_elem_of_In in Hd; cbn [In] in Hd;
    repeat (destruct Hd as [Hd|Hd]; [injection Hd as <- <-; in_table|]);
    destruct Hd.
Qed.

(** C9, as [Use] has it. The entry of [hooksPath] is parsed as hooks and
    adds nothing to the registry.  A symbol of the map under another path
    is in the registry after the call with the value of the map, whether
    the registry had a symbol of this path and name or not, and every
    other symbol of the registry is as it was, with one exception: when
    the map has the path [fmt], [Use] ends on [fixStdio], and the symbols
    that [fixStdio] assigns, in [fmt], [flag], [log] and [os], have in
    the packages that are registered the values over the streams of the
    interpreter, whatever the map or the registry had for them. *)
Theorem C9_Use_merges_exports (values : Exports) (mc : machine World) (k s : string) :
  let before := binPkg (interp mc) in
  let after := binPkg (interp (Use P values mc)) in
  let merged :=
    if String.eqb k (hooksPath P) then binPkg_symbol before k s
    else match binPkg_symbol values k s with
         | Some v => Some v
         | None => binPkg_symbol before k s
         end in
  world (Use P values mc) =
  match values !! hooksPath P with
  | Some v => hooks_Parse P v (world mc)
  | None => world mc
  end
  /\ (values !! "fmt" = None -> binPkg_symbol after k s = merged)
  /\ (is_Some (values !! "fmt") ->
      interp (Use P values mc)
      = fixStdio (map_fold (Use_entry P) (interp mc, world mc) values).1
      /\ ((forall v, ~ In (k, s, v) (stdio_symbols (interp mc))) ->
          binPkg_symbol after k s = merged)
      /\ (hooksPath P <> "fmt" ->
          forall v, In (k, s, v) (stdio_symbols (interp mc)) ->
                    is_Some (after !! k) ->
                    binPkg_symbol after k s = Some v)).
Proof.
  intros before after merged.
  destruct (Use_loop P values (interp mc) (world mc)) as (Hb & Hw & Ho).
  set (i1 := (map_fold (Use_entry P) (interp mc, world mc) values).1) in *.
  assert (binPkg_symbol (binPkg i1) k s = merged) as Hloop.
  { unfold merged, binPkg_symbol, before. rewrite Hb.
    destruct (String.eqb_spec k (hooksPath P)) as [?|_]; [done|].
    destruct (values !! k) as [v|]; [|done].
    rewrite lookup_union. destruct (v !! s) as [x|] eqn:Hx.
    - by destruct (default ∅ (binPkg (interp mc) !! k) !! s).
    - destruct (binPkg (interp mc) !! k) as [p|]; simpl.
      + by destruct (p !! s).
      + by rewrite lookup_empty. }
  split; [exact Hw|]. split.
  - intros Hfmt. unfold after, Use. rewrite Hfmt. exact Hloop.
  - intros [vf Hfmt].
    assert (interp (Use P values mc) = fixStdio i1) as Hfix
      by (unfold Use; by rewrite Hfmt).
    split; [exact Hfix|]. split.
    + intros Hout. unfold after. rewrite Hfix, fixStdio_other_symbols; [exact Hloop|].
      by rewrite (stdio_symbols_streams (interp mc) i1 Ho).
    + intros Hhooks v Hin Hreg. unfold after in *. rewrite Hfix in *.
      apply fixStdio_stdio_symbols.
      * rewrite Hb, Hfmt. destruct (String.eqb_spec "fmt" (hooksPath P)); [done|eauto].
      * by rewrite (stdio_symbols_streams (interp mc) i1 Ho).
      * unfold fixStdio in Hreg. destruct (binPkg i1 !! "fmt"); [|done].
        cbv zeta in Hreg. cbn [binPkg set_binPkg] in Hreg.
        by rewrite !redefine_registered in Hreg.
Qed.

End MergeFacts.

Lemma C9_Use_merges_exports_witness :
  let values : Exports :=
    {[ "fmt" := {[ "Print" := HostValue "fmt.Print" None;
                   "Sprintf" := HostValue "fmt.Sprintf" None ]} ]} in
  let after := binPkg (interp (Use Toy.plain values Toy.with_os)) in
  is_Some (values !! "fmt")
  /\ hooksPath Toy.plain <> "fmt"
  /\ binPkg_symbol after "fmt" "Sprintf" = Some (HostValue "fmt.Sprintf" None)
  /\ binPkg_symbol after "fmt" "Print" = Some (over "fmt.Fprint" "os.Stdout")
  /\ binPkg_symbol after "os" "Stdout" = Some (over "io.Writer" "os.Stdout").
Proof.
  intros values after.
  assert (is_Some (values !! "fmt")) as Hfmt by (vm_compute; eauto).
  assert (hooksPath Toy.plain <> "fmt") as Hhooks by discriminate.
  assert (forall v, ~ In ("fmt", "Sprintf", v) (stdio_symbols (interp Toy.with_os)))
    as Hout.
  { intros v Hin. cbn [stdio_symbols In] in Hin.
    repeat (destruct Hin as [Hin|Hin]; [discriminate|]). destruct Hin. }
  assert (is_Some (after !! "fmt")) as Hrf by (vm_compute; eauto).
  assert (is_Some (after !! "os")) as Hro by (vm_compute; eauto).
  split; [exact Hfmt|]. split; [exact Hhooks|]. split; [|split].
  - exact (proj1 (proj2 (proj2 (proj2 (C9_Use_merges_exports Toy.plain values Toy.with_os
                                         "fmt" "Sprintf")) Hfmt)) Hout).
  - exact (proj2 (proj2 (proj2 (proj2 (C9_Use_merges_exports Toy.plain values Toy.with_os
                                         "fmt" "Print")) Hfmt)) Hhooks
             (over "fmt.Fprint" "os.Stdout") ltac:(left; reflexivity) Hrf).
  - exact (proj2 (proj2 (proj2 (proj2 (C9_Use_merges_exports Toy.plain values Toy.with_os
                                         "os" "Stdout")) Hfmt)) Hhooks
             (over "io.Writer" "os.Stdout") ltac:(do 24 right; left; reflexivity) Hro).
Defined.

(** An export map with the path [fmt]: its symbol [Print] is not in the
    registry with the value of the map after the call, and the symbol
    [Stdout] of [os], a path the map does not have, is not as it was. *)
Lemma C9_Use_merges_exports_counterexample :
  let values := Toy.one_symbol "fmt" "Print" (HostValue "fmt.Print" None) in
  let before := binPkg (interp Toy.with_os) in
  let after := binPkg (interp (Use Toy.plain values Toy.with_os)) in
  (binPkg_symbol values "fmt" "Print" = Some (HostValue "fmt.Print" None)
   /\ binPkg_symbol after "fmt" "Print" <> Some (HostValue "fmt.Print" None))
  /\ (binPkg_symbol values "os" "Stdout" = None
      /\ binPkg_symbol before "os" "Stdout" = Some (HostValue "os.Stdout" None)
      /\ binPkg_symbol after "os" "Stdout" <> binPkg_symbol before "os" "Stdout").
Proof.
  intros values before after.
  assert (binPkg_symbol after "fmt" "Print" = Some (over "fmt.Fprint" "os.Stdout")) as H1
    by (vm_compute; reflexivity).
  assert (binPkg_symbol after "os" "Stdout" = Some (over "io.Writer" "os.Stdout")) as H2
    by (vm_compute; reflexivity).
  assert (binPkg_symbol before "os" "Stdout" = Some (HostValue "os.Stdout" None)) as H3
    by (vm_compute; reflexivity).
  rewrite H1, H2, H3. repeat split; try (vm_compute; reflexivity); discriminate.
Qed.

(** ** Frames *)

(** X19. Every frame made by [newFrame] below a frame, at any depth,
    has the cancellation case of that frame. *)
Theorem X19_frames_inherit_done (root f : frame) :
  made_below root f -> frame_done f = frame_done root.
Proof.
  induction 1 as [|parent f len id_ _ IH Hnew]; [done|].
  unfold newFrame in Hnew. destruct (len <? 0)%Z; [done|].
  injection Hnew as <-. exact IH.
Qed.

Lemma X19_frames_inherit_done_witness :
  let root := Frame 1 None [] [] None (Some 7%nat) in
  let child := Frame 2 (Some root) [ZeroValue; ZeroValue] [] None (Some 7%nat) in
  let grandchild := Frame 3 (Some child) [] [] None (Some 7%nat) in
  made_below root grandchild /\ frame_done grandchild = frame_done root.
Proof.
  intros root child grandchild.
  assert (made_below root grandchild) as H.
  { apply (made_child root child grandchild 0 3); [|reflexivity].
    apply (made_child root root child 2 2); [constructor|reflexivity]. }
  split; [exact H|]. exact (X19_frames_inherit_done root grandchild H).
Defined.

(** ** Walking a tree of nodes *)

Lemma tree_induction (Q : tree -> Prop) :
  (forall i cs, Forall Q cs -> Q (Tree i cs)) -> forall n, Q n.
Proof.
  intros H. fix IH 1. intros [i cs]. apply H.
  induction cs as [|c cs IHcs]; constructor; [apply IH|apply IHcs].
Qed.

Section WalkFacts.

Context {S : Type}.

Lemma Walk_unfold (in_ : option (tree -> S -> S * bool)) (out : option (tree -> S -> S))
    (n : tree) (s : S) :
  Walk in_ out n s
  = let entered := match in_ with Some f => f n s | None => (s, true) end in
    if entered.2 then
      let s2 := fold_left (fun s c => Walk in_ out c s) (tree_child n) entered.1 in
      match out with Some g => g n s2 | None => s2 end
    else entered.1.
Proof.
  destruct n as [i cs]. simpl.
  destruct (match in_ with Some f => f (Tree i cs) s | None => (s, true) end) as [s1 b].
  simpl. destruct b; [|done].
  assert (forall s1,
             (fix children (cs : list tree) (s : S) {struct cs} : S :=
                match cs with
                | [] => s
                | c :: cs' => children cs' (Walk in_ out c s)
                end) cs s1
             = fold_left (fun s c => Walk in_ out c s) cs s1) as ->; [|done].
  induction cs as [|c cs IH]; intros s2; simpl; [done|]. apply IH.
Qed.

Lemma fold_left_flat_map (h : tree -> S -> S) (visit : tree -> list tree)
    (w : tree -> S -> S) (cs : list tree) :
  Forall (fun c => forall s, w c s = fold_left (fun s n => h n s) (visit c) s) cs ->
  forall s, fold_left (fun s c => w c s) cs s
            = fold_left (fun s n => h n s) (flat_map visit cs) s.
Proof.
  induction 1 as [|c cs Hc _ IH]; intros s; simpl; [done|].
  by rewrite fold_left_app, <- Hc, IH.
Qed.

(** X20. With a nil [in], [Walk] calls [out] once on every node of the
    tree, each after its children and the children from the first to the
    last: the state at the end is that of [out] folded over the
    post-order of the tree. *)
Theorem X20_Walk_out_is_postorder (out : tree -> S -> S) (n : tree) (s : S) :
  Walk None (Some out) n s = fold_left (fun s n => out n s) (postorder n) s.
Proof.
  revert s. induction n as [i cs IH] using tree_induction. intros s.
  rewrite Walk_unfold. simpl.
  rewrite fold_left_app. simpl. f_equal.
  by apply (fold_left_flat_map out postorder).
Qed.

(** X21. With an [in] that returns true everywhere and a nil [out],
    [Walk] acts on every node of the tree before its children: the state
    at the end is that of [in] folded over the pre-order of the tree. *)
Theorem X21_Walk_in_is_preorder (f : tree -> S -> S) (n : tree) (s : S) :
  Walk (Some (fun n s => (f n s, true))) None n s
  = fold_left (fun s n => f n s) (preorder n) s.
Proof.
  revert s. induction n as [i cs IH] using tree_induction. intros s.
  rewrite Walk_unfold. simpl.
  by apply (fold_left_flat_map f preorder).
Qed.

(** X22. A node on which [in] returns false is left at once: [out] is
    called neither on it nor on any node below it. With a test [p] for
    [in], [out] is folded over the nodes reached from the root through
    nodes that satisfy [p], in post-order. *)
Theorem X22_Walk_skips_refused_subtrees (p : tree -> bool) (out : tree -> S -> S)
    (n : tree) (s : S) :
  Walk (Some (fun n s => (s, p n))) (Some out) n s
  = fold_left (fun s n => out n s) (postorder_within p n) s.
Proof.
  revert s. induction n as [i cs IH] using tree_induction. intros s.
  rewrite Walk_unfold. simpl. destruct (p (Tree i cs)); [|done].
  rewrite fold_left_app. simpl. f_equal.
  by apply (fold_left_flat_map out (postorder_within p)).
Qed.

End WalkFacts.

(** ** The global frame *)

Section ResizeFrameFacts.

Context {T V : Type} (zero : T -> V) (nilv : V).

Lemma fill_app (types : list T) (pre rest : list V) :
  length rest = length types ->
  fill zero (length pre) types (pre ++ rest)%list = (pre ++ (zero <$> types))%list.
Proof.
  revert pre rest. induction types as [|t types IH]; intros pre rest Hlen; simpl.
  - destruct rest; [done|discriminate].
  - destruct rest as [|r rest]; [discriminate|]. simpl in Hlen.
    rewrite insert_app_r_alt by lia. rewrite Nat.sub_diag. simpl.
    specialize (IH (pre ++ [zero t])%list rest ltac:(lia)).
    rewrite length_app, <- !app_assoc in IH. simpl in IH.
    rewrite Nat.add_1_r in IH. exact IH.
Qed.

Lemma resizeFrame_data_eq (types : list T) (data : list V) :
  resizeFrame_data zero nilv types data
  = (data ++ (zero <$> drop (length data) types))%list.
Proof.
  unfold resizeFrame_data.
  destruct (Z.leb_spec (Z.of_nat (length types) - Z.of_nat (length data)) 0) as [H|H].
  - rewrite drop_ge by lia. by rewrite app_nil_r.
  - unfold copy. rewrite length_replicate.
    rewrite take_ge by lia. rewrite drop_replicate.
    apply fill_app. rewrite length_replicate, length_drop. done.
Qed.

(** X23. [resizeFrame] keeps the values of the frame where they are and
    adds, for each type of the universe past the end of the frame and
    only for these, the zero value of the type. *)
Theorem X23_resizeFrame_appends_zero_values (types : list T) (data : list V) :
  resizeFrame_data zero nilv types data
  = (data ++ (zero <$> drop (length data) types))%list.
Proof. apply resizeFrame_data_eq. Qed.

(** X24. After [resizeFrame] the frame has a value for every type of the
    universe and is never shorter than before, and a second call
    changes nothing. *)
Theorem X24_resizeFrame_idempotent (types : list T) (data : list V) :
  length (resizeFrame_data zero nilv types data) = max (length types) (length data)
  /\ resizeFrame_data zero nilv types (resizeFrame_data zero nilv types data)
     = resizeFrame_data zero nilv types data.
Proof.
  assert (length (resizeFrame_data zero nilv types data)
          = max (length types) (length data)) as Hlen.
  { rewrite resizeFrame_data_eq.
    rewrite length_app, length_fmap, length_drop. lia. }
  split; [exact Hlen|].
  rewrite (resizeFrame_data_eq types (resizeFrame_data _ _ _ _)).
  rewrite Hlen. rewrite drop_ge by lia. by rewrite app_nil_r.
Qed.

End ResizeFrameFacts.

(** ** Wrappers *)

(** X25. [getWrapper] returns nil for the types of the packages that are
    not registered, and for no other: on a registered package without
    the symbol of the wrapper it panics. *)
Theorem X25_getWrapper_nil_iff_unregistered (elem : reflect_Value -> option string)
    (b : Exports) (pkgPath typeName : string) :
  (getWrapper elem b pkgPath typeName = Ok None <-> b !! pkgPath = None)
  /\ (forall p, b !! pkgPath = Some p -> p !! ("_" +:+ typeName) = None ->
        exists v st, getWrapper elem b pkgPath typeName = Panicking v st).
Proof.
  unfold getWrapper. split.
  - destruct (b !! pkgPath) as [p|]; [|done].
    destruct (default ZeroValue (p !! ("_" +:+ typeName))) as [|r n]; [done|].
    destruct (elem (HostValue r n)); done.
  - intros p -> ->. simpl. eauto.
Qed.

(** ** More of the driver *)

(** X27. On a file of fewer than two bytes, an empty file for one, the
    driver panics at [s[:2]]: the process ends with status 2 and nothing
    has been evaluated or printed. *)
Theorem X27_driver_panics_on_short_file (h : Driver.Host) (c : Driver.CommandLine)
    (file : string) (more : list string) (b : string) :
  Driver.args c = file :: more ->
  Driver.ReadFile h file = Some b ->
  (String.length b < 2)%nat ->
  Driver.main h c = {| Driver.status := 2; Driver.acts := [] |}.
Proof.
  intros Hargs Hread Hlen. unfold Driver.main. rewrite Hargs, Hread.
  unfold Driver.script_source, Driver.first_two.
  by replace (2 <=? String.length b)%nat with false by (symmetry; apply Nat.leb_gt; lia).
Qed.

Lemma X27_driver_panics_on_short_file_witness :
  let h := {| Driver.ReadFile := fun _ => Some "";
              Driver.Eval := fun _ _ => Ok None;
              Driver.Repl := Ok tt |} in
  Driver.args (Toy.run_file "empty.go") = ["empty.go"]
  /\ Driver.ReadFile h "empty.go" = Some ""
  /\ (String.length "" < 2)%nat
  /\ Driver.main h (Toy.run_file "empty.go") = {| Driver.status := 2; Driver.acts := [] |}.
Proof.
  intros h.
  assert (String.length "" < 2)%nat as Hlen by (simpl; lia).
  split; [reflexivity|]. split; [reflexivity|]. split; [exact Hlen|].
  exact (X27_driver_panics_on_short_file h (Toy.run_file "empty.go") "empty.go" [] ""
           eq_refl eq_refl Hlen).
Defined.

(** X28. The source the driver hands to the evaluator has the length of
    the content of the file and the same bytes from the third on: the
    positions of the evaluator are positions in the file. *)
Theorem X28_driver_source_keeps_positions (b s : string) :
  Driver.script_source b = Some s ->
  String.length s = String.length b
  /\ forall n : nat, (2 <= n)%nat -> String.get n s = String.get n b.
Proof.
  unfold Driver.script_source, Driver.first_two.
  destruct (Nat.leb_spec 2 (String.length b)) as [Hlen|Hlen]; [|done].
  destruct (String.eqb_spec (GoStrings.slice_to b 2) "#!") as [Hpre|Hpre].
  - intros [= <-].
    pose proof (GoStringsFacts.substring_split b 2 Hlen) as Hb.
    unfold GoStrings.slice_to in Hpre. rewrite Hpre in Hb.
    set (rest := String.substring 2 (String.length b - 2) b) in Hb.
    rewrite Hb, GoStringsFacts.Replace_leading by done.
    split; [by rewrite !GoStringsFacts.length_append|].
    intros [|[|n]] Hn; [lia|lia|]. reflexivity.
  - by intros [= <-].
Qed.

Lemma X28_driver_source_keeps_positions_witness :
  Driver.script_source "#!/bin/yaegi" = Some "///bin/yaegi"
  /\ String.length "///bin/yaegi" = String.length "#!/bin/yaegi"
  /\ String.get 3 "///bin/yaegi" = String.get 3 "#!/bin/yaegi".
Proof.
  split; [reflexivity|].
  split.
  - exact (proj1 (X28_driver_source_keeps_positions "#!/bin/yaegi" "///bin/yaegi" eq_refl)).
  - exact (proj2 (X28_driver_source_keeps_positions "#!/bin/yaegi" "///bin/yaegi" eq_refl)
             3%nat ltac:(lia)).
Defined.
